(** * RISC-V-TLM: instruction decoding and the TLM-2 memory target

    A shallow embedding of [inc/Instruction.h] and [inc/Memory.h].

    Machine integers are mathematical integers ([Z]) with every conversion
    written out: [to_uint64] for a value that becomes a [uint64], [to_int32]
    for a value stored into an [int32_t].  The instruction word is an
    [sc_int<32>]; its part selection [range] and bit selection [bit] follow
    the SystemC data-type library (IEEE 1666), which keeps the value
    sign-extended in a 64-bit slot and returns selections as [uint64]. *)

From Stdlib Require Import ZArith Lia List Bool.
From coqutil Require Import Z.bitblast.
Import ListNotations.

Local Open Scope Z_scope.

(** ** Machine integers *)

Module MachInt.

(** Value of an integer once converted to [uint64]. *)
Definition to_uint64 (x : Z) : Z := x mod 2 ^ 64.

(** Value of an integer once stored in an [int32_t] (two's complement). *)
Definition to_int32 (x : Z) : Z :=
  let u := x mod 2 ^ 32 in
  if u <? 2 ^ 31 then u else u - 2 ^ 32.

(** [x << n] computed on [uint64]. *)
Definition shl_u64 (x n : Z) : Z := to_uint64 (Z.shiftl x n).

(** [x << n] on [int] literals; the result is kept as a 32-bit pattern. *)
Definition shl_int (x n : Z) : Z := to_int32 (Z.shiftl x n).

(** [aux |= x] where [aux] is an [int32_t] and [x] a [uint64]: [aux] is
    converted to [uint64], or-ed, and the result stored back. *)
Definition or_assign_u64 (aux x : Z) : Z :=
  to_int32 (Z.lor (to_uint64 aux) x).

(** [aux |= x] where both are [int]. *)
Definition or_assign_int (aux x : Z) : Z := Z.lor aux x.

End MachInt.
Import MachInt.

(** ** [sc_int<32>] *)

Module ScInt.

Definition SC_INTWIDTH : Z := 64.

(** Storing a value in an [sc_int<32>] keeps its low 32 bits,
    sign-extended ([extend_sign]). *)
Definition extend_sign (x : Z) : Z := to_int32 x.

(** [m_instr.range(left, right)] read as a [uint64]:
    [val << uleft >> uright] on the 64-bit slot. *)
Definition range (m_val left right : Z) : Z :=
  let val := to_uint64 m_val in
  let uleft := SC_INTWIDTH - (left + 1) in
  let uright := uleft + right in
  Z.shiftr (shl_u64 val uleft) uright.

(** [m_instr[i]] read as a [uint64]: [0 != (m_val & (1 << i))]. *)
Definition bit (m_val i : Z) : Z :=
  if Z.land (to_uint64 m_val) (shl_u64 1 i) =? 0 then 0 else 1.

End ScInt.

(** ** [opCodes] and [Codes] *)

Inductive opCodes : Type :=
| OP_LUI | OP_AUIPC | OP_JAL | OP_JALR
| OP_BEQ | OP_BNE | OP_BLT | OP_BGE | OP_BLTU | OP_BGEU
| OP_LB | OP_LH | OP_LW | OP_LBU | OP_LHU
| OP_SB | OP_SH | OP_SW
| OP_ADDI | OP_SLTI | OP_SLTIU | OP_XORI | OP_ORI | OP_ANDI
| OP_SLLI | OP_SRLI | OP_SRAI
| OP_ADD | OP_SUB | OP_SLL | OP_SLT | OP_SLTU | OP_XOR
| OP_SRL | OP_SRA | OP_OR | OP_AND
| OP_ERROR.

Definition opCodes_eqb (a b : opCodes) : bool :=
  match a, b with
  | OP_LUI, OP_LUI | OP_AUIPC, OP_AUIPC | OP_JAL, OP_JAL | OP_JALR, OP_JALR
  | OP_BEQ, OP_BEQ | OP_BNE, OP_BNE | OP_BLT, OP_BLT | OP_BGE, OP_BGE
  | OP_BLTU, OP_BLTU | OP_BGEU, OP_BGEU
  | OP_LB, OP_LB | OP_LH, OP_LH | OP_LW, OP_LW | OP_LBU, OP_LBU
  | OP_LHU, OP_LHU
  | OP_SB, OP_SB | OP_SH, OP_SH | OP_SW, OP_SW
  | OP_ADDI, OP_ADDI | OP_SLTI, OP_SLTI | OP_SLTIU, OP_SLTIU
  | OP_XORI, OP_XORI | OP_ORI, OP_ORI | OP_ANDI, OP_ANDI
  | OP_SLLI, OP_SLLI | OP_SRLI, OP_SRLI | OP_SRAI, OP_SRAI
  | OP_ADD, OP_ADD | OP_SUB, OP_SUB | OP_SLL, OP_SLL | OP_SLT, OP_SLT
  | OP_SLTU, OP_SLTU | OP_XOR, OP_XOR | OP_SRL, OP_SRL | OP_SRA, OP_SRA
  | OP_OR, OP_OR | OP_AND, OP_AND
  | OP_ERROR, OP_ERROR => true
  | _, _ => false
  end.

(** The [Codes] enumeration: major opcodes, [_F] funct3 values and [_F7]
    funct7 values (binary literals of the source, written in decimal). *)
Module Codes.
Definition LUI     : Z := 55.   (* 0b0110111 *)
Definition AUIPC   : Z := 23.   (* 0b0010111 *)
Definition JAL     : Z := 111.  (* 0b1101111 *)
Definition JALR    : Z := 103.  (* 0b1100111 *)

Definition BEQ     : Z := 99.   (* 0b1100011 *)
Definition BEQ_F   : Z := 0.
Definition BNE_F   : Z := 1.
Definition BLT_F   : Z := 4.
Definition BGE_F   : Z := 5.
Definition BLTU_F  : Z := 6.
Definition BGEU_F  : Z := 7.

Definition LB      : Z := 3.    (* 0b0000011 *)
Definition LB_F    : Z := 0.
Definition LH_F    : Z := 1.
Definition LW_F    : Z := 2.
Definition LBU_F   : Z := 4.
Definition LHU_F   : Z := 5.

Definition SB      : Z := 35.   (* 0b0100011 *)
Definition SB_F    : Z := 0.
Definition SH_F    : Z := 1.
Definition SW_F    : Z := 2.

Definition ADDI    : Z := 19.   (* 0b0010011 *)
Definition ADDI_F  : Z := 0.
Definition SLTI_F  : Z := 2.
Definition SLTIU_F : Z := 3.
Definition XORI_F  : Z := 4.
Definition ORI_F   : Z := 6.
Definition ANDI_F  : Z := 7.
Definition SLLI_F  : Z := 1.
Definition SRLI_F  : Z := 5.
Definition SRLI_F7 : Z := 0.    (* 0b0000000 *)
Definition SRAI_F7 : Z := 32.   (* 0b0100000 *)

Definition ADD     : Z := 51.   (* 0b0110011 *)
Definition ADD_F   : Z := 0.
Definition SUB_F   : Z := 0.
Definition ADD_F7  : Z := 0.    (* 0b0000000 *)
Definition SUB_F7  : Z := 32.   (* 0b0100000 *)

Definition SLL_F   : Z := 1.
Definition SLT_F   : Z := 2.
Definition SLTU_F  : Z := 3.
Definition XOR_F   : Z := 4.
Definition SRL_F   : Z := 5.
Definition SRA_F   : Z := 5.
Definition SRL_F7  : Z := 0.    (* 0b0000000 *)
Definition SRA_F7  : Z := 32.   (* 0b0100000 *)
Definition OR_F    : Z := 6.
Definition AND_F   : Z := 7.
End Codes.

(** ** [class Instruction] *)

Record Instruction : Type := { m_instr : Z }.

(** Modelled from the spec: the constructor [Instruction(sc_int<32> instr)]
    is only declared in the header; the decoder is "constructed from one
    32-bit word", so the argument is stored as an [sc_int<32>]. *)
Definition new_Instruction (instr : Z) : Instruction :=
  {| m_instr := ScInt.extend_sign instr |}.

Section Accessors.

Variable I : Instruction.

Let range (left right : Z) : Z := ScInt.range (m_instr I) left right.
Let bit (i : Z) : Z := ScInt.bit (m_instr I) i.

Definition opcode : Z := to_int32 (range 6 0).
Definition rd     : Z := to_int32 (range 11 7).
Definition funct3 : Z := to_int32 (range 14 12).
Definition rs1    : Z := to_int32 (range 19 15).
Definition rs2    : Z := to_int32 (range 24 20).
Definition funct7 : Z := to_int32 (range 31 25).

Definition imm_I : Z :=
  let aux := 0 in
  let aux := to_int32 (range 31 20) in
  (* sign extension *)
  let aux :=
    if bit 31 =? 1 then or_assign_int aux (shl_int 0xFFFFF 12) else aux in
  aux.

Definition imm_S : Z :=
  let aux := 0 in
  let aux := to_int32 (shl_u64 (range 31 25) 5) in
  let aux := or_assign_u64 aux (range 11 7) in
  let aux :=
    if bit 31 =? 1 then or_assign_int aux (shl_int 0xFFFFF 12) else aux in
  aux.

Definition imm_U : Z := to_int32 (range 31 12).

Definition imm_B : Z :=
  let aux := 0 in
  let aux := or_assign_u64 aux (shl_u64 (bit 7) 11) in
  let aux := or_assign_u64 aux (shl_u64 (range 30 25) 5) in
  let aux := or_assign_u64 aux (shl_u64 (bit 31) 12) in
  let aux := or_assign_u64 aux (shl_u64 (range 11 8) 1) in
  let aux :=
    if bit 31 =? 1 then or_assign_int aux (shl_int 0xFFFFF 12) else aux in
  aux.

Definition imm_J : Z :=
  let aux := 0 in
  let aux := to_int32 (shl_u64 (bit 31) 20) in
  let aux := or_assign_u64 aux (shl_u64 (range 19 12) 12) in
  let aux := or_assign_u64 aux (shl_u64 (bit 20) 11) in
  let aux := or_assign_u64 aux (shl_u64 (range 30 21) 1) in
  (* bit extension *)
  let aux :=
    if bit 31 =? 1 then or_assign_int aux (shl_int 0xFFF 20) else aux in
  aux.

Definition csr : Z := imm_I.

End Accessors.

(** ** [Instruction::decode] *)

(** Modelled from the spec: [Instruction::decode] is declared in the header
    and defined outside [inc/].  Section 4.1: dispatch is two-level; the
    opcode selects a major family, funct3 selects the operation inside the
    branch, load, store, immediate and register families, and where one
    funct3 names two operations (add/subtract, logical/arithmetic right
    shift) funct7 is compared with the family's [_F7] codes.  Any other
    combination yields [OP_ERROR]. *)
Definition decode_fields (op f3 f7 : Z) : opCodes :=
  if op =? Codes.LUI then OP_LUI
  else if op =? Codes.AUIPC then OP_AUIPC
  else if op =? Codes.JAL then OP_JAL
  else if op =? Codes.JALR then OP_JALR
  else if op =? Codes.BEQ then
    if f3 =? Codes.BEQ_F then OP_BEQ
    else if f3 =? Codes.BNE_F then OP_BNE
    else if f3 =? Codes.BLT_F then OP_BLT
    else if f3 =? Codes.BGE_F then OP_BGE
    else if f3 =? Codes.BLTU_F then OP_BLTU
    else if f3 =? Codes.BGEU_F then OP_BGEU
    else OP_ERROR
  else if op =? Codes.LB then
    if f3 =? Codes.LB_F then OP_LB
    else if f3 =? Codes.LH_F then OP_LH
    else if f3 =? Codes.LW_F then OP_LW
    else if f3 =? Codes.LBU_F then OP_LBU
    else if f3 =? Codes.LHU_F then OP_LHU
    else OP_ERROR
  else if op =? Codes.SB then
    if f3 =? Codes.SB_F then OP_SB
    else if f3 =? Codes.SH_F then OP_SH
    else if f3 =? Codes.SW_F then OP_SW
    else OP_ERROR
  else if op =? Codes.ADDI then
    if f3 =? Codes.ADDI_F then OP_ADDI
    else if f3 =? Codes.SLTI_F then OP_SLTI
    else if f3 =? Codes.SLTIU_F then OP_SLTIU
    else if f3 =? Codes.XORI_F then OP_XORI
    else if f3 =? Codes.ORI_F then OP_ORI
    else if f3 =? Codes.ANDI_F then OP_ANDI
    else if f3 =? Codes.SLLI_F then OP_SLLI
    else if f3 =? Codes.SRLI_F then
      if f7 =? Codes.SRLI_F7 then OP_SRLI
      else if f7 =? Codes.SRAI_F7 then OP_SRAI
      else OP_ERROR
    else OP_ERROR
  else if op =? Codes.ADD then
    if f3 =? Codes.ADD_F then
      if f7 =? Codes.ADD_F7 then OP_ADD
      else if f7 =? Codes.SUB_F7 then OP_SUB
      else OP_ERROR
    else if f3 =? Codes.SLL_F then OP_SLL
    else if f3 =? Codes.SLT_F then OP_SLT
    else if f3 =? Codes.SLTU_F then OP_SLTU
    else if f3 =? Codes.XOR_F then OP_XOR
    else if f3 =? Codes.SRL_F then
      if f7 =? Codes.SRL_F7 then OP_SRL
      else if f7 =? Codes.SRA_F7 then OP_SRA
      else OP_ERROR
    else if f3 =? Codes.OR_F then OP_OR
    else if f3 =? Codes.AND_F then OP_AND
    else OP_ERROR
  else OP_ERROR.

Definition decode (I : Instruction) : opCodes :=
  decode_fields (opcode I) (funct3 I) (funct7 I).

(** *** The known table

    One entry per defined instruction, read off the [Codes] enumeration:
    the major opcode, the [_F] code when the instruction has one, and the
    [_F7] code when it has one.  The header gives [SRAI] an [_F7] code
    only; its entry takes the funct3 code of [SRLI], the shift it is
    paired with. *)

Record entry : Type := {
  e_opcode : Z;
  e_funct3 : option Z;
  e_funct7 : option Z;
  e_tag    : opCodes
}.

Definition known_table : list entry :=
  let E o f g t :=
    {| e_opcode := o; e_funct3 := f; e_funct7 := g; e_tag := t |} in
  [ E Codes.LUI   None None OP_LUI;
    E Codes.AUIPC None None OP_AUIPC;
    E Codes.JAL   None None OP_JAL;
    E Codes.JALR  None None OP_JALR;
    E Codes.BEQ (Some Codes.BEQ_F)  None OP_BEQ;
    E Codes.BEQ (Some Codes.BNE_F)  None OP_BNE;
    E Codes.BEQ (Some Codes.BLT_F)  None OP_BLT;
    E Codes.BEQ (Some Codes.BGE_F)  None OP_BGE;
    E Codes.BEQ (Some Codes.BLTU_F) None OP_BLTU;
    E Codes.BEQ (Some Codes.BGEU_F) None OP_BGEU;
    E Codes.LB (Some Codes.LB_F)  None OP_LB;
    E Codes.LB (Some Codes.LH_F)  None OP_LH;
    E Codes.LB (Some Codes.LW_F)  None OP_LW;
    E Codes.LB (Some Codes.LBU_F) None OP_LBU;
    E Codes.LB (Some Codes.LHU_F) None OP_LHU;
    E Codes.SB (Some Codes.SB_F) None OP_SB;
    E Codes.SB (Some Codes.SH_F) None OP_SH;
    E Codes.SB (Some Codes.SW_F) None OP_SW;
    E Codes.ADDI (Some Codes.ADDI_F)  None OP_ADDI;
    E Codes.ADDI (Some Codes.SLTI_F)  None OP_SLTI;
    E Codes.ADDI (Some Codes.SLTIU_F) None OP_SLTIU;
    E Codes.ADDI (Some Codes.XORI_F)  None OP_XORI;
    E Codes.ADDI (Some Codes.ORI_F)   None OP_ORI;
    E Codes.ADDI (Some Codes.ANDI_F)  None OP_ANDI;
    E Codes.ADDI (Some Codes.SLLI_F)  None OP_SLLI;
    E Codes.ADDI (Some Codes.SRLI_F) (Some Codes.SRLI_F7) OP_SRLI;
    E Codes.ADDI (Some Codes.SRLI_F) (Some Codes.SRAI_F7) OP_SRAI;
    E Codes.ADD (Some Codes.ADD_F) (Some Codes.ADD_F7) OP_ADD;
    E Codes.ADD (Some Codes.SUB_F) (Some Codes.SUB_F7) OP_SUB;
    E Codes.ADD (Some Codes.SLL_F)  None OP_SLL;
    E Codes.ADD (Some Codes.SLT_F)  None OP_SLT;
    E Codes.ADD (Some Codes.SLTU_F) None OP_SLTU;
    E Codes.ADD (Some Codes.XOR_F)  None OP_XOR;
    E Codes.ADD (Some Codes.SRL_F) (Some Codes.SRL_F7) OP_SRL;
    E Codes.ADD (Some Codes.SRA_F) (Some Codes.SRA_F7) OP_SRA;
    E Codes.ADD (Some Codes.OR_F)   None OP_OR;
    E Codes.ADD (Some Codes.AND_F)  None OP_AND ].

Definition field_matches (x : Z) (c : option Z) : bool :=
  match c with
  | Some v => x =? v
  | None => true
  end.

Definition entry_matches (op f3 f7 : Z) (e : entry) : bool :=
  (op =? e_opcode e)
  && field_matches f3 (e_funct3 e)
  && field_matches f7 (e_funct7 e).

Definition table_lookup (op f3 f7 : Z) : list entry :=
  filter (entry_matches op f3 f7) known_table.

(** The tag found by the two-level dispatch, as a list: empty for
    [OP_ERROR]. *)
Definition defined_tag (t : opCodes) : list opCodes :=
  if opCodes_eqb t OP_ERROR then [] else [t].

(** ** Encoding an immediate into its field positions

    The inverse direction of the immediate accessors, following the base
    ISA formats: I in bits 31:20; S in 31:25 and 11:7; B as
    imm[12|10:5] in 31:25 and imm[4:1|11] in 11:7; J as
    imm[20|10:1|11|19:12] in 31:12. *)

Inductive format : Type := FMT_I | FMT_S | FMT_B | FMT_J.

(** Bits [hi:lo] of [v], as an unsigned number. *)
Definition slice (v hi lo : Z) : Z :=
  Z.land (Z.shiftr v lo) (Z.ones (hi - lo + 1)).

Definition encode (f : format) (v : Z) : Z :=
  match f with
  | FMT_I => Z.shiftl (slice v 11 0) 20
  | FMT_S => Z.lor (Z.shiftl (slice v 11 5) 25) (Z.shiftl (slice v 4 0) 7)
  | FMT_B =>
      Z.lor (Z.lor (Z.shiftl (slice v 12 12) 31) (Z.shiftl (slice v 10 5) 25))
            (Z.lor (Z.shiftl (slice v 4 1) 8) (Z.shiftl (slice v 11 11) 7))
  | FMT_J =>
      Z.lor (Z.lor (Z.shiftl (slice v 20 20) 31) (Z.shiftl (slice v 10 1) 21))
            (Z.lor (Z.shiftl (slice v 11 11) 20) (Z.shiftl (slice v 19 12) 12))
  end.

(** The bits of a word that belong to the immediate of each format. *)
Definition field_mask (f : format) : Z :=
  match f with
  | FMT_I => 0xFFF00000
  | FMT_S | FMT_B => 0xFE000F80
  | FMT_J => 0xFFFFF000
  end.

(** [place f base v]: the 32-bit word [base] with the immediate field of
    format [f] overwritten by the encoding of [v]. *)
Definition place (f : format) (base v : Z) : Z :=
  Z.lor (Z.land (base mod 2 ^ 32) (Z.lnot (field_mask f))) (encode f v).

(** The signed displacements each format can represent. *)
Definition representable (f : format) (v : Z) : bool :=
  match f with
  | FMT_I | FMT_S => (-2048 <=? v) && (v <=? 2047)
  | FMT_B => (-4096 <=? v) && (v <=? 4094) && Z.even v
  | FMT_J => (-1048576 <=? v) && (v <=? 1048574) && Z.even v
  end.

Definition immediate (f : format) (I : Instruction) : Z :=
  match f with
  | FMT_I => imm_I I
  | FMT_S => imm_S I
  | FMT_B => imm_B I
  | FMT_J => imm_J I
  end.
(** ** [class Memory] *)

Module Memory.

(** [enum { SIZE = 1024 }]: the capacity, in words. *)
Definition SIZE : Z := 1024.

(** Bytes in one element of [int mem[SIZE]]. *)
Definition WORD_BYTES : Z := 4.

(** The members the transport method works on: [int mem[SIZE]], held as
    the bytes of the array ([WORD_BYTES] per word, word [i] at bytes
    [4 i .. 4 i + 3]), and [const sc_time LATENCY]. *)
Record t : Type := {
  mem : list Byte.byte;
  LATENCY : Z
}.

(** The array has exactly [SIZE] words. *)
Definition well_formed (m : t) : Prop :=
  Z.of_nat (length (mem m)) = WORD_BYTES * SIZE.

(** Word [i] of the array: its four bytes. *)
Definition word (m : list Byte.byte) (i : Z) : list Byte.byte :=
  firstn 4 (skipn (Z.to_nat (WORD_BYTES * i)) m).

Inductive command : Type := READ_COMMAND | WRITE_COMMAND.

Inductive response : Type := OK_RESPONSE | ADDRESS_ERROR_RESPONSE.

(** A transaction: direction, address, payload and its length in bytes.
    The address names a word of the array and is a 64-bit unsigned
    number; the length is a 32-bit unsigned number. *)
Record transaction : Type := {
  cmd : command;
  address : Z;
  data : list Byte.byte;
  data_length : Z
}.

Definition valid_transaction (tr : transaction) : Prop :=
  0 <= address tr < 2 ^ 64 /\ 0 <= data_length tr < 2 ^ 32.

(** What the caller observes once the call returns. *)
Record outcome : Type := {
  after : t;
  data_out : list Byte.byte;
  status : response;
  delay_out : Z
}.

(** [m[i] = b]; no effect outside the array. *)
Fixpoint store (m : list Byte.byte) (i : nat) (b : Byte.byte)
  : list Byte.byte :=
  match m, i with
  | [], _ => []
  | _ :: m', O => b :: m'
  | x :: m', S i' => x :: store m' i' b
  end.

(** Copy [bs] into the array from byte [i] on. *)
Fixpoint store_bytes (m : list Byte.byte) (i : nat) (bs : list Byte.byte)
  : list Byte.byte :=
  match bs with
  | [] => m
  | b :: bs' => store_bytes (store m i b) (S i) bs'
  end.

(** Copy [n] bytes of the array from byte [i] on. *)
Definition load_bytes (m : list Byte.byte) (i n : nat) : list Byte.byte :=
  firstn n (skipn i m).

(** Word [i] is touched by the transaction when one of the
    [data_length] bytes that start at word [address] falls in it. *)
Definition touches (tr : transaction) (i : Z) : Prop :=
  address tr <= i /\
  WORD_BYTES * i < WORD_BYTES * address tr + data_length tr.

(** The span from the address over the length lies within
    [[0, SIZE)]: every word it touches is a word of the array. *)
Definition span_within (tr : transaction) : Prop :=
  forall i, touches tr i -> 0 <= i < SIZE.

(** The bounds check: the address is a word of the array, and the
    [data_length] bytes that start at that word end no later than the
    array does.  No intermediate value leaves the range of its operands,
    so the check is the same in machine arithmetic. *)
Definition in_range (tr : transaction) : bool :=
  (address tr <? SIZE)
  && (data_length tr <=? WORD_BYTES * (SIZE - address tr)).

(** Modelled from the spec: [Memory::b_transport] is declared in the
    header and defined outside [inc/].  Section 3: the memory is "a
    fixed-capacity array of addressable words", a transaction carries an
    address and a "length in bytes", and "no transaction may read or write
    outside [0, capacity)".  Section 4.2: the transaction "validates
    address + length lies within capacity; if not, fails with an
    out-of-range fault and performs no partial read/write.  Otherwise
    performs the word(s)-aligned copy between the payload and backing
    storage in the requested direction", and on this (timed) path adds the
    constant latency to the caller's delay.  Section 8: address "capacity
    (one past the end)" fails. *)
Definition b_transport (m : t) (tr : transaction) (delay : Z) : outcome :=
  if in_range tr then
    let i := Z.to_nat (WORD_BYTES * address tr) in
    let n := Z.to_nat (data_length tr) in
    match cmd tr with
    | READ_COMMAND =>
        {| after := m;
           data_out := load_bytes (mem m) i n;
           status := OK_RESPONSE;
           delay_out := delay + LATENCY m |}
    | WRITE_COMMAND =>
        {| after := {| mem := store_bytes (mem m) i (firstn n (data tr));
                       LATENCY := LATENCY m |};
           data_out := data tr;
           status := OK_RESPONSE;
           delay_out := delay + LATENCY m |}
    end
  else
    {| after := m;
       data_out := data tr;
       status := ADDRESS_ERROR_RESPONSE;
       delay_out := delay |}.

End Memory.

(** * Properties *)

(** ** Bits of the machine-integer conversions *)

Section MachIntFacts.

Lemma to_uint64_bits (x k : Z) :
  Z.testbit (to_uint64 x) k = (k <? 64) && Z.testbit x k.
Proof.
  unfold to_uint64. apply Z.testbit_mod_pow2. lia.
Qed.

Lemma testbit_nonneg_above (n v k : Z) :
  0 <= v < 2 ^ n -> 0 <= n <= k -> Z.testbit v k = false.
Proof.
  intros Hv Hk.
  rewrite <- (Z.mod_small v (2 ^ n)) by assumption.
  apply Z.mod_pow2_bits_high. lia.
Qed.

Lemma testbit_neg_above (n v k : Z) :
  - 2 ^ n <= v < 0 -> 0 <= n <= k -> Z.testbit v k = true.
Proof.
  intros Hv Hk.
  replace v with (- (- v)) by lia.
  rewrite Z.bits_opp by lia.
  rewrite (testbit_nonneg_above n) by lia.
  reflexivity.
Qed.

(** Storing into an [int32_t] keeps bits 0 to 30 and repeats bit 31. *)
Lemma to_int32_bits (x k : Z) :
  0 <= k ->
  Z.testbit (to_int32 x) k = Z.testbit x (if k <? 31 then k else 31).
Proof.
  intros Hk. unfold to_int32.
  assert (Hu : 0 <= x mod 2 ^ 32 < 2 ^ 32) by (apply Z.mod_pos_bound; lia).
  assert (H31 : Z.testbit x 31 = negb (x mod 2 ^ 32 <? 2 ^ 31)).
  { rewrite <- (Z.mod_pow2_bits_low x 32 31) by lia.
    destruct (Z.ltb_spec (x mod 2 ^ 32) (2 ^ 31)) as [Hlt | Hge]; cbn [negb].
    - apply (testbit_nonneg_above 31); lia.
    - apply Z.testbit_true; [lia|].
      replace (x mod 2 ^ 32 / 2 ^ 31) with 1; [reflexivity|].
      apply Z.div_unique with (r := x mod 2 ^ 32 - 2 ^ 31); lia. }
  destruct (Z.ltb_spec (x mod 2 ^ 32) (2 ^ 31)) as [Hlt | Hge];
    cbn [negb] in H31.
  - destruct (Z.ltb_spec k 31) as [Hk31 | Hk31].
    + apply Z.mod_pow2_bits_low. lia.
    + rewrite H31. apply (testbit_nonneg_above 31); lia.
  - destruct (Z.ltb_spec k 32) as [Hk32 | Hk32].
    + assert (E : Z.testbit (x mod 2 ^ 32 - 2 ^ 32) k = Z.testbit x k).
      { rewrite <- (Z.mod_pow2_bits_low (x mod 2 ^ 32 - 2 ^ 32) 32 k) by lia.
        rewrite <- (Z.mod_pow2_bits_low x 32 k) by lia.
        f_equal.
        replace (x mod 2 ^ 32 - 2 ^ 32)
          with (x mod 2 ^ 32 + (-1) * 2 ^ 32) by lia.
        rewrite Z.mod_add by lia. apply Z.mod_mod. lia. }
      rewrite E.
      destruct (Z.ltb_spec k 31); [reflexivity | f_equal; lia].
    + rewrite (testbit_neg_above 32) by lia.
      destruct (Z.ltb_spec k 31); [lia | symmetry; exact H31].
Qed.

Lemma to_int32_small (x : Z) : - 2 ^ 31 <= x < 2 ^ 31 -> to_int32 x = x.
Proof.
  intros Hx. unfold to_int32.
  destruct (Z.le_gt_cases 0 x) as [Hpos | Hneg].
  - rewrite Z.mod_small by lia.
    destruct (Z.ltb_spec x (2 ^ 31)); lia.
  - replace (x mod 2 ^ 32) with (x + 2 ^ 32).
    + destruct (Z.ltb_spec (x + 2 ^ 32) (2 ^ 31)); lia.
    + apply Z.mod_unique with (q := -1); lia.
Qed.

End MachIntFacts.

(** ** Part and bit selection of [sc_int<32>] *)

Section ScIntFacts.

Lemma range_bits (m left right k : Z) :
  0 <= right <= left -> left < 64 -> 0 <= k ->
  Z.testbit (ScInt.range m left right) k
  = (k + right <=? left) && Z.testbit m (k + right).
Proof.
  intros Hr Hl Hk. unfold ScInt.range, ScInt.SC_INTWIDTH, shl_u64.
  rewrite Z.shiftr_spec by assumption.
  rewrite to_uint64_bits.
  rewrite Z.shiftl_spec by lia.
  rewrite to_uint64_bits.
  replace (k + (64 - (left + 1) + right) - (64 - (left + 1)))
    with (k + right) by lia.
  destruct (Z.leb_spec (k + right) left);
    destruct (Z.ltb_spec (k + (64 - (left + 1) + right)) 64);
    destruct (Z.ltb_spec (k + right) 64); try lia; reflexivity.
Qed.

(** A part selection is the unsigned value of the selected bits. *)
Lemma range_slice (m left right : Z) :
  0 <= right <= left -> left < 64 ->
  ScInt.range m left right = slice m left right.
Proof.
  intros Hr Hl. unfold slice.
  apply Z.bits_inj'. intros k Hk.
  rewrite range_bits by assumption.
  rewrite Z.land_spec, Z.shiftr_spec, Z.testbit_ones_nonneg by lia.
  destruct (Z.leb_spec (k + right) left);
    destruct (Z.ltb_spec k (left - right + 1)); try lia;
    destruct (Z.testbit m (k + right)); reflexivity.
Qed.

Lemma slice_bound (v hi lo : Z) :
  lo <= hi -> 0 <= slice v hi lo < 2 ^ (hi - lo + 1).
Proof.
  intros H. unfold slice. rewrite Z.land_ones by lia.
  apply Z.mod_pos_bound. apply Z.pow_pos_nonneg; lia.
Qed.

Lemma range_bound (m left right : Z) :
  0 <= right <= left -> left < 64 ->
  0 <= ScInt.range m left right < 2 ^ (left - right + 1).
Proof.
  intros Hr Hl. rewrite range_slice by assumption.
  apply slice_bound. lia.
Qed.

Lemma bit_testbit (m i : Z) :
  0 <= i < 64 -> ScInt.bit m i = Z.b2z (Z.testbit m i).
Proof.
  intros Hi. unfold ScInt.bit, shl_u64.
  assert (E : Z.land (to_uint64 m) (to_uint64 (Z.shiftl 1 i))
              = if Z.testbit m i then 2 ^ i else 0).
  { apply Z.bits_inj'. intros k Hk.
    rewrite Z.land_spec, !to_uint64_bits, Z.shiftl_spec by lia.
    destruct (Z.eq_dec k i) as [-> | Hne].
    - replace (i - i) with 0 by lia.
      destruct (Z.ltb_spec i 64); [|lia].
      destruct (Z.testbit m i); cbn.
      + rewrite Z.pow2_bits_true; [reflexivity | lia].
      + symmetry. apply Z.bits_0.
    - assert (Z.testbit 1 (k - i) = false) as ->.
      { destruct (Z.lt_ge_cases (k - i) 0).
        - apply Z.testbit_neg_r. lia.
        - apply (testbit_nonneg_above 1); lia. }
      rewrite !andb_false_r.
      destruct (Z.testbit m i).
      + rewrite Z.pow2_bits_false; [reflexivity | lia].
      + symmetry. apply Z.bits_0. }
  rewrite E.
  destruct (Z.testbit m i); cbn [Z.b2z].
  - assert (0 < 2 ^ i) by (apply Z.pow_pos_nonneg; lia).
    destruct (Z.eqb_spec (2 ^ i) 0); [lia | reflexivity].
  - reflexivity.
Qed.

(** The stored word has the low 32 bits of the constructor's argument. *)
Lemma m_instr_bits (w k : Z) :
  0 <= k <= 31 ->
  Z.testbit (m_instr (new_Instruction w)) k = Z.testbit w k.
Proof.
  intros Hk. cbn [m_instr new_Instruction]. unfold ScInt.extend_sign.
  rewrite to_int32_bits by lia.
  destruct (Z.ltb_spec k 31); [reflexivity | f_equal; lia].
Qed.

Lemma field_bits (w left right k : Z) :
  0 <= right <= left -> left <= 31 -> 0 <= k ->
  Z.testbit (ScInt.range (m_instr (new_Instruction w)) left right) k
  = (k + right <=? left) && Z.testbit w (k + right).
Proof.
  intros Hr Hl Hk. rewrite range_bits by lia.
  destruct (Z.leb_spec (k + right) left); [|reflexivity].
  cbn [andb]. apply m_instr_bits. lia.
Qed.

Lemma field_slice (w left right : Z) :
  0 <= right <= left -> left <= 31 ->
  ScInt.range (m_instr (new_Instruction w)) left right = slice w left right.
Proof.
  intros Hr Hl. rewrite range_slice by lia. unfold slice.
  apply Z.bits_inj'. intros k Hk.
  rewrite !Z.land_spec, !Z.shiftr_spec, Z.testbit_ones_nonneg by lia.
  destruct (Z.ltb_spec k (left - right + 1)).
  - rewrite m_instr_bits by lia. reflexivity.
  - rewrite !andb_false_r. reflexivity.
Qed.

Lemma field_bit (w i : Z) :
  0 <= i <= 31 ->
  ScInt.bit (m_instr (new_Instruction w)) i = Z.b2z (Z.testbit w i).
Proof.
  intros Hi. rewrite bit_testbit by lia. rewrite m_instr_bits by lia.
  reflexivity.
Qed.

End ScIntFacts.

(** ** Bits of the immediates *)

Section ImmediateBits.

Lemma to_int32_bits_low (x k : Z) :
  0 <= k < 31 -> Z.testbit (to_int32 x) k = Z.testbit x k.
Proof.
  intros Hk. rewrite to_int32_bits by lia.
  destruct (Z.ltb_spec k 31); [reflexivity | lia].
Qed.

Lemma to_int32_bits_high (x k : Z) :
  31 <= k -> Z.testbit (to_int32 x) k = Z.testbit x 31.
Proof.
  intros Hk. rewrite to_int32_bits by lia.
  destruct (Z.ltb_spec k 31); [lia | reflexivity].
Qed.

Lemma testbit_1 (j : Z) : Z.testbit 1 j = (j =? 0).
Proof.
  destruct (Z.eqb_spec j 0) as [-> | Hne]; [reflexivity|].
  destruct (Z.lt_ge_cases j 0).
  - apply Z.testbit_neg_r. assumption.
  - apply (testbit_nonneg_above 1); lia.
Qed.

Lemma testbit_m1_shifted (n k : Z) :
  0 <= n -> 0 <= k -> Z.testbit (Z.shiftl (-1) n) k = (n <=? k).
Proof.
  intros Hn Hk. rewrite Z.shiftl_spec by assumption.
  destruct (Z.leb_spec n k).
  - apply Z.testbit_minus1. lia.
  - apply Z.testbit_neg_r. lia.
Qed.

Lemma field_bits_any (w left right k : Z) :
  0 <= right <= left -> left <= 31 ->
  Z.testbit (ScInt.range (m_instr (new_Instruction w)) left right) k
  = (0 <=? k) && (k + right <=? left) && Z.testbit w (k + right).
Proof.
  intros Hr Hl. destruct (Z.leb_spec 0 k).
  - apply field_bits; assumption.
  - apply Z.testbit_neg_r. assumption.
Qed.

Ltac push_bits :=
  repeat first
    [ rewrite Z.lor_spec
    | rewrite to_uint64_bits
    | rewrite to_int32_bits_low by lia
    | rewrite to_int32_bits_high by lia
    | rewrite testbit_m1_shifted by lia
    | rewrite Z.shiftl_spec by lia
    | rewrite field_bits_any by lia
    | rewrite testbit_1
    | rewrite Z.bits_0 ].

Ltac split_tests :=
  repeat match goal with
    | |- context [ ?a <? ?b ] => destruct (Z.ltb_spec a b); try lia
    | |- context [ ?a <=? ?b ] => destruct (Z.leb_spec a b); try lia
    | |- context [ ?a =? ?b ] => destruct (Z.eqb_spec a b); try lia
    end.

Ltac same_bit :=
  cbn [andb orb];
  rewrite ?orb_false_r, ?orb_true_r, ?andb_false_r, ?andb_true_r;
  first [ reflexivity
        | f_equal; lia
        | match goal with H : Z.testbit _ _ = _ |- _ =>
            rewrite <- H; f_equal; lia end
        | match goal with H : Z.testbit _ _ = _ |- _ =>
            rewrite H; reflexivity end ].

Ltac by_bits w :=
  destruct (Z.testbit w 31) eqn:?; cbn [Z.b2z Z.eqb Pos.eqb];
  split_tests;
  match goal with
  | |- context [ Z.testbit _ ?k ] =>
      is_var k; destruct (Z.lt_ge_cases k 31)
  end;
  push_bits; split_tests; same_bit.

Lemma imm_I_bits (w k : Z) :
  0 <= k ->
  Z.testbit (imm_I (new_Instruction w)) k
  = Z.testbit w (if k <? 11 then k + 20 else 31).
Proof.
  intros Hk. unfold imm_I, or_assign_int.
  rewrite field_bit by lia.
  change (shl_int 0xFFFFF 12) with (Z.shiftl (-1) 12).
  by_bits w.
Qed.

Lemma imm_S_bits (w k : Z) :
  0 <= k ->
  Z.testbit (imm_S (new_Instruction w)) k
  = Z.testbit w (if k <? 5 then k + 7 else if k <? 11 then k + 20 else 31).
Proof.
  intros Hk. unfold imm_S, or_assign_u64, or_assign_int, shl_u64.
  rewrite field_bit by lia.
  change (shl_int 0xFFFFF 12) with (Z.shiftl (-1) 12).
  by_bits w.
Qed.

Lemma imm_B_bits (w k : Z) :
  0 <= k ->
  Z.testbit (imm_B (new_Instruction w)) k
  = if k =? 0 then false
    else Z.testbit w (if k <? 5 then k + 7
                      else if k <? 11 then k + 20
                      else if k =? 11 then 7 else 31).
Proof.
  intros Hk. unfold imm_B, or_assign_u64, or_assign_int, shl_u64.
  rewrite !field_bit by lia.
  change (shl_int 0xFFFFF 12) with (Z.shiftl (-1) 12).
  destruct (Z.testbit w 7) eqn:?; by_bits w.
Qed.

Lemma imm_J_bits (w k : Z) :
  0 <= k ->
  Z.testbit (imm_J (new_Instruction w)) k
  = if k =? 0 then false
    else Z.testbit w (if k <? 11 then k + 20
                      else if k =? 11 then 20
                      else if k <? 20 then k else 31).
Proof.
  intros Hk. unfold imm_J, or_assign_u64, or_assign_int, shl_u64.
  rewrite !field_bit by lia.
  change (shl_int 0xFFF 20) with (Z.shiftl (-1) 20).
  destruct (Z.testbit w 20) eqn:?; by_bits w.
Qed.

End ImmediateBits.

(** ** Field accessors *)

Section FieldAccessors.

Variable w : Z.
Let I := new_Instruction w.

(** A field of at most 31 bits read into an [int32_t] is the unsigned
    value of its bits. *)
Lemma field_value (left right : Z) :
  0 <= right <= left -> left <= 31 -> left - right < 31 ->
  to_int32 (ScInt.range (m_instr I) left right) = slice w left right.
Proof.
  intros Hr Hl Hw. subst I.
  rewrite field_slice by assumption.
  apply to_int32_small.
  pose proof (slice_bound w left right ltac:(lia)) as Hb.
  assert (2 ^ (left - right + 1) <= 2 ^ 31)
    by (apply Z.pow_le_mono_r; lia).
  lia.
Qed.

Lemma opcode_value : opcode I = slice w 6 0.
Proof. apply field_value; lia. Qed.

Lemma rd_value : rd I = slice w 11 7.
Proof. apply field_value; lia. Qed.

Lemma funct3_value : funct3 I = slice w 14 12.
Proof. apply field_value; lia. Qed.

Lemma rs1_value : rs1 I = slice w 19 15.
Proof. apply field_value; lia. Qed.

Lemma rs2_value : rs2 I = slice w 24 20.
Proof. apply field_value; lia. Qed.

Lemma funct7_value : funct7 I = slice w 31 25.
Proof. apply field_value; lia. Qed.

Lemma imm_U_value : imm_U I = slice w 31 12.
Proof. apply field_value; lia. Qed.

End FieldAccessors.

(** C9: for every 32-bit word, also one with the sign bit set, the field
    accessors return non-negative values bounded by the field widths:
    [opcode] and [funct7] in [[0, 127]], [rd], [rs1] and [rs2] in
    [[0, 31]], [funct3] in [[0, 7]]. *)
Theorem field_accessors_bounded (w : Z) :
  let I := new_Instruction w in
  0 <= opcode I <= 127 /\
  0 <= rd I <= 31 /\
  0 <= rs1 I <= 31 /\
  0 <= rs2 I <= 31 /\
  0 <= funct3 I <= 7 /\
  0 <= funct7 I <= 127.
Proof.
  cbv zeta.
  rewrite opcode_value, rd_value, rs1_value, rs2_value, funct3_value,
    funct7_value.
  pose proof (slice_bound w 6 0 ltac:(lia)).
  pose proof (slice_bound w 11 7 ltac:(lia)).
  pose proof (slice_bound w 19 15 ltac:(lia)).
  pose proof (slice_bound w 24 20 ltac:(lia)).
  pose proof (slice_bound w 14 12 ltac:(lia)).
  pose proof (slice_bound w 31 25 ltac:(lia)).
  cbn in *. lia.
Qed.

(** C6: [imm_U] is never sign-extended: for every 32-bit word, bit 31 set
    or not, it is the non-negative value of bits 31:12; on the word
    [0x000000B7] it is [0]. *)
Theorem imm_U_zero_extended (w : Z) :
  let I := new_Instruction w in
  imm_U I = slice w 31 12 /\
  0 <= imm_U I < 2 ^ 20 /\
  imm_U (new_Instruction 0x000000B7) = 0.
Proof.
  cbv zeta. rewrite imm_U_value.
  pose proof (slice_bound w 31 12 ltac:(lia)) as Hb.
  repeat split; try (cbn in Hb; lia).
Qed.

(** C8: the word [0x00000013] decodes to [OP_ADDI], with [rd = 0],
    [rs1 = 0] and [imm_I = 0]. *)
Theorem nop_decodes_to_addi :
  let I := new_Instruction 0x00000013 in
  decode I = OP_ADDI /\ rd I = 0 /\ rs1 I = 0 /\ imm_I I = 0.
Proof.
  cbv zeta. repeat split; vm_compute; reflexivity.
Qed.

(** ** Sign extension of the I-type immediate *)

Section SignExtension.

(** A number whose bits from position [n] on are all equal to [b] lies in
    the signed range of [n + 1] bits. *)
Lemma signed_range_of_bits (n x : Z) (b : bool) :
  0 <= n ->
  (forall k, n <= k -> Z.testbit x k = b) ->
  - 2 ^ n <= x < 2 ^ n /\ (b = true <-> x < 0).
Proof.
  intros Hn Hbits.
  assert (Hp : 0 < 2 ^ n) by (apply Z.pow_pos_nonneg; lia).
  destruct b.
  - assert (E : Z.lnot x = Z.lnot x mod 2 ^ n).
    { apply Z.bits_inj'. intros k Hk.
      rewrite Z.testbit_mod_pow2 by lia.
      destruct (Z.ltb_spec k n); [reflexivity|].
      rewrite Z.lnot_spec, Hbits by lia. reflexivity. }
    pose proof (Z.mod_pos_bound (Z.lnot x) (2 ^ n) Hp) as Hb.
    rewrite <- E in Hb. unfold Z.lnot in Hb.
    split; [lia | split; [lia | reflexivity]].
  - assert (E : x = x mod 2 ^ n).
    { apply Z.bits_inj'. intros k Hk.
      rewrite Z.testbit_mod_pow2 by lia.
      destruct (Z.ltb_spec k n); [reflexivity|].
      rewrite Hbits by lia. reflexivity. }
    pose proof (Z.mod_pos_bound x (2 ^ n) Hp) as Hb.
    rewrite <- E in Hb.
    split; [lia | split; [discriminate | lia]].
Qed.

(** The bits of a number in the signed range of [n + 1] bits repeat its
    sign from position [n] on. *)
Lemma bits_of_signed_range (n x k : Z) :
  - 2 ^ n <= x < 2 ^ n -> 0 <= n <= k ->
  Z.testbit x k = (x <? 0).
Proof.
  intros Hx Hk.
  destruct (Z.ltb_spec x 0).
  - apply (testbit_neg_above n); lia.
  - apply (testbit_nonneg_above n); lia.
Qed.

Lemma slice_bits (v hi lo k : Z) :
  0 <= lo <= hi ->
  Z.testbit (slice v hi lo) k
  = (0 <=? k) && (k + lo <=? hi) && Z.testbit v (k + lo).
Proof.
  intros H. unfold slice.
  destruct (Z.leb_spec 0 k) as [Hk | Hk].
  - rewrite Z.land_spec, Z.shiftr_spec, Z.testbit_ones_nonneg by lia.
    destruct (Z.leb_spec (k + lo) hi); destruct (Z.ltb_spec k (hi - lo + 1));
      try lia; destruct (Z.testbit v (k + lo)); reflexivity.
  - apply Z.testbit_neg_r. assumption.
Qed.

(** [imm_I] is bits 31:20 of the word, sign-extended from bit 31. *)
Lemma imm_I_value (w : Z) :
  imm_I (new_Instruction w)
  = slice w 31 20 - (if Z.testbit w 31 then 4096 else 0).
Proof.
  unfold imm_I, or_assign_int.
  rewrite field_bit by lia.
  rewrite (field_value w 31 20) by lia.
  change (shl_int 0xFFFFF 12) with (- 4096).
  pose proof (slice_bound w 31 20 ltac:(lia)) as Hb. cbn in Hb.
  destruct (Z.testbit w 31) eqn:E31; cbn [Z.b2z Z.eqb Pos.eqb]; [|lia].
  rewrite Z.or_to_plus; [lia|].
  apply Z.bits_inj'. intros k Hk.
  rewrite Z.land_spec, Z.bits_0.
  change (- 4096) with (Z.shiftl (-1) 12).
  rewrite testbit_m1_shifted by lia.
  destruct (Z.leb_spec 12 k); [|apply andb_false_r].
  rewrite (testbit_nonneg_above 12) by lia. reflexivity.
Qed.

Lemma imm_I_range (w : Z) : - 2048 <= imm_I (new_Instruction w) <= 2047.
Proof.
  destruct (signed_range_of_bits 11 (imm_I (new_Instruction w))
              (Z.testbit w 31)) as [Hb _]; [lia | | cbn in Hb; lia].
  intros k Hk. rewrite imm_I_bits by lia.
  destruct (Z.ltb_spec k 11); [lia | reflexivity].
Qed.

End SignExtension.

(** C2 (as amended): for every 32-bit word with bit 31 set and bits 30:20
    all zero, [imm_I] returns [-2048], the sign-extended 12-bit pattern
    [0x800]. *)
Theorem imm_I_sign_bit_only (w : Z) :
  Z.testbit w 31 = true ->
  slice w 30 20 = 0 ->
  imm_I (new_Instruction w) = - 2048.
Proof.
  intros H31 Hlow.
  rewrite imm_I_value, H31.
  assert (E : slice w 31 20 = 2 ^ 11).
  { apply Z.bits_inj'. intros k Hk.
    rewrite slice_bits, Z.pow2_bits_eqb by lia.
    destruct (Z.leb_spec 0 k); [cbn [andb] | lia].
    destruct (Z.eqb_spec 11 k) as [<- | Hne].
    - cbn. exact H31.
    - destruct (Z.leb_spec (k + 20) 31); [cbn [andb] | reflexivity].
      assert (Hz : Z.testbit (slice w 30 20) k = false)
        by (rewrite Hlow; apply Z.bits_0).
      rewrite slice_bits in Hz by lia.
      destruct (Z.leb_spec 0 k); [|lia].
      destruct (Z.leb_spec (k + 20) 30); [exact Hz | lia]. }
  rewrite E. reflexivity.
Qed.

Lemma imm_I_sign_bit_only_witness :
  Z.testbit 0x80000000 31 = true /\
  slice 0x80000000 30 20 = 0 /\
  imm_I (new_Instruction 0x80000000) = - 2048.
Proof.
  split; [reflexivity | split; [reflexivity|]].
  apply (imm_I_sign_bit_only 0x80000000); reflexivity.
Defined.

(** C2 as stated fails: the word [0x80000000] has bit 31 set and bits
    30:20 zero, and its I-type immediate is not [-4096]. *)
Lemma imm_I_sign_bit_only_not_m4096 :
  ~ (forall w : Z,
       Z.testbit w 31 = true ->
       slice w 30 20 = 0 ->
       imm_I (new_Instruction w) = - 4096).
Proof.
  intros H.
  specialize (H 0x80000000 eq_refl eq_refl).
  vm_compute in H. discriminate H.
Qed.

(** C3 (as amended): for every 32-bit word, [csr] returns what [imm_I]
    returns: bits 31:20 sign-extended from bit 31, a value in
    [[-2048, 2047]]; it is the zero-extended value of bits 31:20, in
    [[0, 2047]], exactly when bit 31 is clear. *)
Theorem csr_is_sign_extended (w : Z) :
  let I := new_Instruction w in
  csr I = imm_I I /\
  csr I = slice w 31 20 - (if Z.testbit w 31 then 4096 else 0) /\
  - 2048 <= csr I <= 2047 /\
  (csr I = slice w 31 20 <-> Z.testbit w 31 = false).
Proof.
  cbv zeta. unfold csr.
  pose proof (imm_I_range w) as Hr.
  rewrite imm_I_value in *.
  repeat split; try lia.
  - destruct (Z.testbit w 31); [lia | reflexivity].
  - intros ->. lia.
Qed.

(** C3 as stated fails: on the word [0x80000000] [csr] is negative, not
    the zero-extended value [2048] of bits 31:20. *)
Lemma csr_not_zero_extended :
  ~ (forall w : Z,
       let I := new_Instruction w in
       csr I = slice w 31 20 /\ 0 <= csr I <= 4095).
Proof.
  intros H.
  destruct (H 0x80000000) as [_ [H0 _]].
  vm_compute in H0. apply H0. reflexivity.
Qed.

(** ** Branch and jump immediates *)

Lemma even_of_bit0 (x : Z) : Z.testbit x 0 = false -> Z.even x = true.
Proof.
  intros H. rewrite Z.bit0_odd in H.
  rewrite <- Z.negb_odd, H. reflexivity.
Qed.

Lemma even_below (x n : Z) : Z.even x = true -> Z.even n = true ->
  x < n -> x <= n - 2.
Proof.
  intros Hx Hn Hlt.
  apply Z.even_spec in Hx. destruct Hx as [a ->].
  apply Z.even_spec in Hn. destruct Hn as [c ->].
  lia.
Qed.

(** C10: for every 32-bit word, the branch and jump immediates are even
    (bit 0 is 0) and lie in their signed ranges: [imm_B] in
    [[-4096, 4094]] and [imm_J] in [[-1048576, 1048574]]. *)
Theorem branch_jump_immediates_even_bounded (w : Z) :
  let I := new_Instruction w in
  (Z.testbit (imm_B I) 0 = false /\ Z.even (imm_B I) = true /\
   - 4096 <= imm_B I <= 4094) /\
  (Z.testbit (imm_J I) 0 = false /\ Z.even (imm_J I) = true /\
   - 1048576 <= imm_J I <= 1048574).
Proof.
  cbv zeta.
  assert (HB0 : Z.testbit (imm_B (new_Instruction w)) 0 = false)
    by (rewrite imm_B_bits by lia; reflexivity).
  assert (HJ0 : Z.testbit (imm_J (new_Instruction w)) 0 = false)
    by (rewrite imm_J_bits by lia; reflexivity).
  pose proof (even_of_bit0 _ HB0) as HBe.
  pose proof (even_of_bit0 _ HJ0) as HJe.
  destruct (signed_range_of_bits 12 (imm_B (new_Instruction w))
              (Z.testbit w 31)) as [HBr _]; [lia | |].
  { intros k Hk. rewrite imm_B_bits by lia.
    destruct (Z.eqb_spec k 0); [lia|].
    destruct (Z.ltb_spec k 5); [lia|].
    destruct (Z.ltb_spec k 11); [lia|].
    destruct (Z.eqb_spec k 11); [lia | reflexivity]. }
  destruct (signed_range_of_bits 20 (imm_J (new_Instruction w))
              (Z.testbit w 31)) as [HJr _]; [lia | |].
  { intros k Hk. rewrite imm_J_bits by lia.
    destruct (Z.eqb_spec k 0); [lia|].
    destruct (Z.ltb_spec k 11); [lia|].
    destruct (Z.eqb_spec k 11); [lia|].
    destruct (Z.ltb_spec k 20); [lia | reflexivity]. }
  pose proof (even_below _ 4096 HBe eq_refl (proj2 HBr)).
  pose proof (even_below _ 1048576 HJe eq_refl (proj2 HJr)).
  change (2 ^ 12) with 4096 in HBr. change (2 ^ 20) with 1048576 in HJr.
  repeat split; try assumption; lia.
Qed.

(** ** Round trip of the immediate encodings *)

Section RoundTrip.

Lemma field_mask_I : field_mask FMT_I = Z.shiftl (Z.ones 12) 20.
Proof. reflexivity. Qed.

Lemma field_mask_S :
  field_mask FMT_S = Z.lor (Z.shiftl (Z.ones 7) 25) (Z.shiftl (Z.ones 5) 7).
Proof. reflexivity. Qed.

Lemma field_mask_B :
  field_mask FMT_B = Z.lor (Z.shiftl (Z.ones 7) 25) (Z.shiftl (Z.ones 5) 7).
Proof. reflexivity. Qed.

Lemma field_mask_J : field_mask FMT_J = Z.shiftl (Z.ones 20) 12.
Proof. reflexivity. Qed.

Lemma odd_bit0 (v : Z) : Z.even v = true -> Z.testbit v 0 = false.
Proof.
  intros H. rewrite Z.bit0_odd, <- Z.negb_even, H. reflexivity.
Qed.

Ltac split_tests :=
  repeat match goal with
    | |- context [ ?a <? ?b ] => destruct (Z.ltb_spec a b); try lia
    | |- context [ ?a <=? ?b ] => destruct (Z.leb_spec a b); try lia
    | |- context [ ?a =? ?b ] => destruct (Z.eqb_spec a b); try lia
    end.

Ltac push_place :=
  repeat first
    [ rewrite Z.lor_spec
    | rewrite Z.land_spec
    | rewrite Z.lnot_spec by lia
    | rewrite Z.shiftl_spec by lia
    | rewrite slice_bits by lia
    | rewrite Z.testbit_ones by lia
    | rewrite Z.testbit_mod_pow2 by lia ].

Ltac round_trip n v :=
  split_tests; push_place; split_tests;
  cbn [andb orb negb];
  rewrite ?orb_false_r, ?andb_false_r, ?andb_true_r;
  cbn [andb orb negb];
  first [ reflexivity
        | f_equal; lia
        | rewrite !(bits_of_signed_range n v) by lia; reflexivity
        | subst; rewrite odd_bit0 by assumption; reflexivity ].

(** C4: for every signed displacement a format can represent (I and S:
    [[-2048, 2047]]; B: even values in [[-4096, 4094]]; J: even values in
    [[-1048576, 1048574]]), writing its bits into the format's field
    positions of a 32-bit word and reading the format's immediate back
    returns the displacement. *)
Theorem immediate_round_trip (f : format) (base v : Z) :
  representable f v = true ->
  immediate f (new_Instruction (place f base v)) = v.
Proof.
  intros Hrep. unfold place.
  destruct f; cbn [representable immediate encode] in *;
    repeat match goal with
      | H : _ && _ = true |- _ => apply andb_prop in H; destruct H
      | H : (_ <=? _) = true |- _ => apply Z.leb_le in H
      end.
  - rewrite field_mask_I.
    apply Z.bits_inj'; intros k Hk. rewrite imm_I_bits by lia.
    round_trip 11 v.
  - rewrite field_mask_S.
    apply Z.bits_inj'; intros k Hk. rewrite imm_S_bits by lia.
    round_trip 11 v.
  - rewrite field_mask_B.
    apply Z.bits_inj'; intros k Hk. rewrite imm_B_bits by lia.
    round_trip 12 v.
  - rewrite field_mask_J.
    apply Z.bits_inj'; intros k Hk. rewrite imm_J_bits by lia.
    round_trip 20 v.
Qed.

End RoundTrip.

Lemma immediate_round_trip_witness :
  representable FMT_B (- 4096) = true /\
  immediate FMT_B (new_Instruction (place FMT_B 0x00000063 (- 4096)))
  = - 4096.
Proof.
  split; [reflexivity|].
  apply (immediate_round_trip FMT_B 0x00000063 (- 4096)). reflexivity.
Defined.

(** ** Decoding *)

Section Decode.

Lemma filter_concat {A : Type} (f : A -> bool) (l : list A) :
  filter f l = concat (map (fun e => if f e then [e] else []) l).
Proof.
  induction l as [| e l IH]; cbn [filter map concat]; [reflexivity|].
  destruct (f e); cbn [app]; rewrite IH; reflexivity.
Qed.

Ltac case_field x :=
  repeat match goal with
    | |- context [ x =? ?c ] =>
        destruct (Z.eqb_spec x c) as [-> | ?]; cbn
    end.

(** The dispatch and the table agree on every triple of field values: the
    entries of [known_table] that match are exactly the tag returned, and
    none when [OP_ERROR] is returned. *)
Lemma decode_fields_table (op f3 f7 : Z) :
  map e_tag (table_lookup op f3 f7) = defined_tag (decode_fields op f3 f7).
Proof.
  unfold table_lookup. rewrite filter_concat.
  cbv beta iota zeta delta
      [known_table decode_fields defined_tag map entry_matches
       field_matches e_opcode e_funct3 e_funct7
       Codes.LUI Codes.AUIPC Codes.JAL Codes.JALR Codes.BEQ Codes.BEQ_F
       Codes.BNE_F Codes.BLT_F Codes.BGE_F Codes.BLTU_F Codes.BGEU_F
       Codes.LB Codes.LB_F Codes.LH_F Codes.LW_F Codes.LBU_F Codes.LHU_F
       Codes.SB Codes.SB_F Codes.SH_F Codes.SW_F Codes.ADDI Codes.ADDI_F
       Codes.SLTI_F Codes.SLTIU_F Codes.XORI_F Codes.ORI_F Codes.ANDI_F
       Codes.SLLI_F Codes.SRLI_F Codes.SRLI_F7 Codes.SRAI_F7 Codes.ADD
       Codes.ADD_F Codes.SUB_F Codes.ADD_F7 Codes.SUB_F7 Codes.SLL_F
       Codes.SLT_F Codes.SLTU_F Codes.XOR_F Codes.SRL_F Codes.SRA_F
       Codes.SRL_F7 Codes.SRA_F7 Codes.OR_F Codes.AND_F].
  case_field op; try reflexivity;
    case_field f3; try reflexivity;
    case_field f7; reflexivity.
Qed.

Lemma defined_tag_nil (t : opCodes) : defined_tag t = [] -> t = OP_ERROR.
Proof. destruct t; cbn; intros H; first [reflexivity | discriminate H]. Qed.

Lemma decode_lookup (I : Instruction) :
  map e_tag (table_lookup (opcode I) (funct3 I) (funct7 I))
  = defined_tag (decode I).
Proof. apply decode_fields_table. Qed.

End Decode.

(** C1: [decode] is total on 32-bit words: every word gets exactly one tag
    of [opCodes]; a word whose (opcode, funct3, funct7) matches no entry of
    the known table gets [OP_ERROR], and a word that matches an entry gets
    that entry's tag. *)
Theorem decode_total_unknown_is_error (w : Z) :
  let I := new_Instruction w in
  (exists! t : opCodes, decode I = t) /\
  (table_lookup (opcode I) (funct3 I) (funct7 I) = [] ->
   decode I = OP_ERROR) /\
  (forall e, In e (table_lookup (opcode I) (funct3 I) (funct7 I)) ->
   decode I = e_tag e /\ e_tag e <> OP_ERROR).
Proof.
  cbv zeta. set (I := new_Instruction w).
  pose proof (decode_lookup I) as Hl.
  split; [| split].
  - exists (decode I). split; [reflexivity | intros t' <-; reflexivity].
  - intros Hnone. rewrite Hnone in Hl. cbn [map] in Hl.
    apply defined_tag_nil. symmetry. exact Hl.
  - intros e He.
    apply (in_map e_tag) in He. rewrite Hl in He.
    unfold defined_tag in He.
    destruct (opCodes_eqb (decode I) OP_ERROR) eqn:E; [destruct He|].
    destruct He as [<- | []].
    split; [reflexivity|].
    intros Herr. rewrite Herr in E. discriminate E.
Qed.

Lemma decode_total_unknown_is_error_witness :
  table_lookup (opcode (new_Instruction 0)) (funct3 (new_Instruction 0))
    (funct7 (new_Instruction 0)) = [] /\
  decode (new_Instruction 0) = OP_ERROR.
Proof.
  split; [reflexivity|].
  apply (proj1 (proj2 (decode_total_unknown_is_error 0))). reflexivity.
Defined.

(** C5: in the register-arithmetic family and among the immediate shifts,
    where one funct3 names two operations, funct7 decides:
    [funct7 = 0b0100000] gives [OP_SUB], [OP_SRA], [OP_SRAI] and
    [funct7 = 0b0000000] gives [OP_ADD], [OP_SRL], [OP_SRLI]. *)
Theorem funct7_breaks_ties (w : Z) :
  let I := new_Instruction w in
  (opcode I = Codes.ADD -> funct3 I = Codes.ADD_F ->
   (funct7 I = 32 -> decode I = OP_SUB) /\
   (funct7 I = 0 -> decode I = OP_ADD)) /\
  (opcode I = Codes.ADD -> funct3 I = Codes.SRL_F ->
   (funct7 I = 32 -> decode I = OP_SRA) /\
   (funct7 I = 0 -> decode I = OP_SRL)) /\
  (opcode I = Codes.ADDI -> funct3 I = Codes.SRLI_F ->
   (funct7 I = 32 -> decode I = OP_SRAI) /\
   (funct7 I = 0 -> decode I = OP_SRLI)).
Proof.
  cbv zeta. unfold decode.
  split; [| split]; intros Hop Hf3; rewrite Hop, Hf3;
    split; intros Hf7; rewrite Hf7; reflexivity.
Qed.

Lemma funct7_breaks_ties_witness :
  (decode (new_Instruction 0x40000033) = OP_SUB /\
   decode (new_Instruction 0x00000033) = OP_ADD) /\
  (decode (new_Instruction 0x40005033) = OP_SRA /\
   decode (new_Instruction 0x00005033) = OP_SRL) /\
  (decode (new_Instruction 0x40005013) = OP_SRAI /\
   decode (new_Instruction 0x00005013) = OP_SRLI).
Proof.
  split; [split | split; split].
  - apply (proj1 (funct7_breaks_ties 0x40000033)); reflexivity.
  - apply (proj1 (funct7_breaks_ties 0x00000033)); reflexivity.
  - apply (proj1 (proj2 (funct7_breaks_ties 0x40005033))); reflexivity.
  - apply (proj1 (proj2 (funct7_breaks_ties 0x00005033))); reflexivity.
  - apply (proj2 (proj2 (funct7_breaks_ties 0x40005013))); reflexivity.
  - apply (proj2 (proj2 (funct7_breaks_ties 0x00005013))); reflexivity.
Defined.

(** ** Memory transactions *)

Section MemoryFacts.

Import Memory.

Lemma store_length (m : list Byte.byte) (i : nat) (x : Byte.byte) :
  length (store m i x) = length m.
Proof.
  revert i. induction m as [| y m IH]; intros [| i]; cbn; try reflexivity.
  rewrite IH. reflexivity.
Qed.

Lemma store_bytes_length (bs m : list Byte.byte) (i : nat) :
  length (store_bytes m i bs) = length m.
Proof.
  revert m i. induction bs as [| x bs IH]; intros m i; cbn; [reflexivity|].
  rewrite IH. apply store_length.
Qed.

(** The capacity never changes: a transaction leaves the array with the
    size it had. *)
Lemma b_transport_capacity (m : t) (tr : transaction) (delay : Z) :
  length (mem (after (b_transport m tr delay))) = length (mem m).
Proof.
  unfold b_transport.
  destruct (in_range tr); [destruct (cmd tr) |]; cbn; try reflexivity.
  apply store_bytes_length.
Qed.

(** The check accepts exactly the transactions whose bytes lie in the
    array: the address is below [SIZE] and the last byte is inside. *)
Lemma in_range_spec (tr : transaction) :
  in_range tr = true <->
  address tr < SIZE /\
  WORD_BYTES * address tr + data_length tr <= WORD_BYTES * SIZE.
Proof.
  unfold in_range, WORD_BYTES, SIZE.
  rewrite andb_true_iff, Z.ltb_lt, Z.leb_le. lia.
Qed.

(** An address at or past the end is refused whatever the length, also
    when [4 * address + length] computed on 64 bits would fall back into
    the array. *)
Lemma address_past_end_out_of_range (tr : transaction) :
  SIZE <= address tr -> in_range tr = false.
Proof.
  intros H. unfold in_range.
  destruct (Z.ltb_spec (address tr) SIZE); [lia | reflexivity].
Qed.

(** The span of a transaction lies within the array exactly when it is
    empty or its last byte is inside. *)
Lemma span_within_spec (tr : transaction) :
  valid_transaction tr ->
  (span_within tr <->
   data_length tr = 0 \/
   WORD_BYTES * address tr + data_length tr <= WORD_BYTES * SIZE).
Proof.
  intros [Ha Hl]. unfold span_within, touches, WORD_BYTES, SIZE.
  split.
  - intros H.
    destruct (Z.eq_dec (data_length tr) 0) as [Hz | Hnz]; [left; exact Hz|].
    right.
    pose proof (H (address tr + (data_length tr - 1) / 4)) as Hi.
    pose proof (Z.div_mod (data_length tr - 1) 4 ltac:(lia)) as Hdm.
    pose proof (Z.mod_pos_bound (data_length tr - 1) 4 ltac:(lia)) as Hmb.
    assert (0 <= (data_length tr - 1) / 4)
      by (apply Z.div_pos; lia).
    lia.
  - intros [Hz | Hfit] i [Hi1 Hi2]; lia.
Qed.

(** A transaction faults exactly when it is out of range. *)
Lemma fault_iff_out_of_range (m : t) (tr : transaction) (delay : Z) :
  status (b_transport m tr delay) = ADDRESS_ERROR_RESPONSE <->
  SIZE <= address tr \/
  WORD_BYTES * SIZE < WORD_BYTES * address tr + data_length tr.
Proof.
  unfold b_transport.
  destruct (in_range tr) eqn:E.
  - apply in_range_spec in E.
    destruct (cmd tr); cbn [status]; split; try discriminate; lia.
  - cbn [status]. split; [intros _ | reflexivity].
    destruct (Z.lt_ge_cases (address tr) SIZE) as [Hlt | Hge];
      [right | left; exact Hge].
    destruct (Z.le_gt_cases
                (WORD_BYTES * address tr + data_length tr)
                (WORD_BYTES * SIZE)) as [Hle | Hgt]; [| lia].
    assert (in_range tr = true) as Hr by (apply in_range_spec; lia).
    rewrite Hr in E. discriminate E.
Qed.

(** Every word of the array can be read, the last one too. *)
Lemma every_word_readable (m : t) (i delay : Z) (buf : list Byte.byte) :
  0 <= i < SIZE ->
  let r := b_transport m {| cmd := READ_COMMAND; address := i;
                            data := buf; data_length := WORD_BYTES |}
             delay in
  status r = OK_RESPONSE /\ data_out r = word (mem m) i /\ after r = m.
Proof.
  intros Hi. cbv zeta. unfold b_transport.
  assert (Hr : in_range {| cmd := READ_COMMAND; address := i;
                           data := buf; data_length := WORD_BYTES |} = true).
  { apply in_range_spec. cbn [address data_length].
    unfold WORD_BYTES, SIZE in *. lia. }
  rewrite Hr. cbn [status data_out after cmd address data_length].
  unfold load_bytes, word. repeat split.
Qed.

(** The whole array can be read in one transaction. *)
Lemma whole_array_readable (m : t) (delay : Z) (buf : list Byte.byte) :
  well_formed m ->
  let r := b_transport m {| cmd := READ_COMMAND; address := 0;
                            data := buf;
                            data_length := WORD_BYTES * SIZE |}
             delay in
  status r = OK_RESPONSE /\ data_out r = mem m.
Proof.
  intros Hwf. cbv zeta. unfold b_transport.
  assert (Hr : in_range {| cmd := READ_COMMAND; address := 0;
                           data := buf;
                           data_length := WORD_BYTES * SIZE |} = true).
  { apply in_range_spec. cbn [address data_length].
    unfold WORD_BYTES, SIZE. lia. }
  rewrite Hr. cbn [status data_out after cmd address data_length].
  split; [reflexivity|].
  unfold load_bytes. rewrite Z.mul_0_r. cbn [Z.to_nat skipn].
  apply firstn_all2. unfold well_formed in Hwf. lia.
Qed.

Lemma store_nth_same (m : list Byte.byte) (i : nat) (b : Byte.byte) :
  (i < length m)%nat -> nth_error (store m i b) i = Some b.
Proof.
  revert i. induction m as [| y m IH]; intros [| i] H; cbn in *;
    try lia; [reflexivity | apply IH; lia].
Qed.

Lemma store_nth_other (m : list Byte.byte) (i j : nat) (b : Byte.byte) :
  i <> j -> nth_error (store m i b) j = nth_error m j.
Proof.
  revert i j. induction m as [| y m IH]; intros [| i] [| j] H; cbn;
    try reflexivity; try lia.
  apply IH. lia.
Qed.

(** A copy into the array leaves the bytes before and after it alone. *)
Lemma store_bytes_nth_outside (bs m : list Byte.byte) (i j : nat) :
  (j < i \/ i + length bs <= j)%nat ->
  nth_error (store_bytes m i bs) j = nth_error m j.
Proof.
  revert m i. induction bs as [| b bs IH]; intros m i H; cbn in *;
    [reflexivity|].
  rewrite IH by lia. apply store_nth_other. lia.
Qed.

(** Inside the array, the copied bytes are found where they were put. *)
Lemma store_bytes_nth_inside (bs m : list Byte.byte) (i k : nat) :
  (i + length bs <= length m)%nat -> (k < length bs)%nat ->
  nth_error (store_bytes m i bs) (i + k) = nth_error bs k.
Proof.
  revert m i k. induction bs as [| b bs IH]; intros m i k Hfit Hk;
    cbn in *; [lia|].
  destruct k as [| k].
  - rewrite Nat.add_0_r.
    rewrite store_bytes_nth_outside by lia.
    apply store_nth_same. lia.
  - replace (i + S k)%nat with (S i + k)%nat by lia.
    apply IH; [rewrite store_length; lia | lia].
Qed.

Lemma load_bytes_nth (m : list Byte.byte) (i n k : nat) :
  (k < n)%nat -> nth_error (load_bytes m i n) k = nth_error m (i + k).
Proof.
  intros Hk. unfold load_bytes.
  rewrite nth_error_firstn.
  destruct (Nat.ltb_spec k n); [| lia].
  apply nth_error_skipn.
Qed.

(** Writing in range and reading the same span back returns the bytes
    written, and the array keeps its size. *)
Lemma write_then_read (m : t) (a n delay : Z) (bs buf : list Byte.byte) :
  well_formed m ->
  0 <= a < SIZE -> 0 <= n -> WORD_BYTES * a + n <= WORD_BYTES * SIZE ->
  Z.of_nat (length bs) = n ->
  let w := b_transport m {| cmd := WRITE_COMMAND; address := a;
                            data := bs; data_length := n |} delay in
  let r := b_transport (after w) {| cmd := READ_COMMAND; address := a;
                                    data := buf; data_length := n |}
             (delay_out w) in
  status w = OK_RESPONSE /\ status r = OK_RESPONSE /\ data_out r = bs /\
  well_formed (after w).
Proof.
  intros Hwf Ha Hn Hfit Hlen. cbv zeta.
  assert (Hw : in_range {| cmd := WRITE_COMMAND; address := a;
                           data := bs; data_length := n |} = true)
    by (apply in_range_spec; cbn [address data_length]; lia).
  assert (Hr : in_range {| cmd := READ_COMMAND; address := a;
                           data := buf; data_length := n |} = true)
    by (apply in_range_spec; cbn [address data_length]; lia).
  assert (Hcap : well_formed
            (after (b_transport m {| cmd := WRITE_COMMAND; address := a;
                                     data := bs; data_length := n |}
                      delay))).
  { unfold well_formed in *. rewrite b_transport_capacity. exact Hwf. }
  split; [| split; [| split; [| exact Hcap]]].
  - unfold b_transport. rewrite Hw. reflexivity.
  - unfold b_transport at 1. rewrite Hr. reflexivity.
  - unfold b_transport. rewrite Hw, Hr.
    cbn [cmd address data data_length after mem data_out].
    unfold well_formed, WORD_BYTES, SIZE in *.
    assert (Hall : firstn (Z.to_nat n) bs = bs)
      by (apply firstn_all2; lia).
    rewrite Hall.
    apply nth_error_ext. intros k.
    destruct (Nat.ltb_spec k (Z.to_nat n)) as [Hk | Hk].
    + rewrite load_bytes_nth by assumption.
      apply store_bytes_nth_inside; lia.
    + assert (Hl : (length (load_bytes
                      (store_bytes (mem m) (Z.to_nat (4 * a)) bs)
                      (Z.to_nat (4 * a)) (Z.to_nat n)) <= k)%nat).
      { unfold load_bytes. rewrite length_firstn. lia. }
      apply nth_error_None in Hl. rewrite Hl.
      symmetry. apply nth_error_None. lia.
Qed.

End MemoryFacts.

(** C7: the memory has a fixed capacity of 1024 words, and a transaction
    whose address plus length does not lie within [[0, capacity)] (the
    address is at or past the capacity, as when it equals the capacity, or
    the span from the address over the length touches a word outside the
    array) fails with the out-of-range fault and performs no read or
    write: the memory and the payload are left as they were. *)
Theorem out_of_range_transaction_faults
    (m : Memory.t) (tr : Memory.transaction) (delay : Z) :
  Memory.well_formed m ->
  Memory.valid_transaction tr ->
  Memory.SIZE <= Memory.address tr \/ ~ Memory.span_within tr ->
  let r := Memory.b_transport m tr delay in
  Memory.SIZE = 1024 /\
  length (Memory.mem m) = (4 * 1024)%nat /\
  Memory.well_formed (Memory.after r) /\
  Memory.status r = Memory.ADDRESS_ERROR_RESPONSE /\
  Memory.after r = m /\
  Memory.data_out r = Memory.data tr.
Proof.
  intros Hwf [Ha Hl] Hout r.
  assert (Hr : Memory.in_range tr = false).
  { destruct (Memory.in_range tr) eqn:E; [exfalso | reflexivity].
    apply in_range_spec in E.
    destruct Hout as [Hpast | Hspan]; [lia|].
    apply Hspan. intros i [Hi1 Hi2].
    unfold Memory.WORD_BYTES, Memory.SIZE in *. lia. }
  assert (Hcap : Memory.well_formed (Memory.after r)).
  { unfold Memory.well_formed in *. subst r.
    rewrite b_transport_capacity. exact Hwf. }
  subst r. unfold Memory.b_transport in *. rewrite Hr in *.
  cbn [Memory.after Memory.status Memory.data_out] in *.
  unfold Memory.well_formed, Memory.WORD_BYTES, Memory.SIZE in *.
  repeat split; try assumption. lia.
Qed.

Lemma out_of_range_transaction_faults_witness :
  let m := {| Memory.mem := repeat Byte.x00 4096; Memory.LATENCY := 10 |} in
  let tr := {| Memory.cmd := Memory.WRITE_COMMAND;
               Memory.address := 1024;
               Memory.data := [Byte.x07; Byte.x00; Byte.x00; Byte.x00];
               Memory.data_length := 4 |} in
  Memory.well_formed m /\
  Memory.valid_transaction tr /\
  Memory.address tr = Memory.SIZE /\
  Memory.status (Memory.b_transport m tr 0) = Memory.ADDRESS_ERROR_RESPONSE /\
  Memory.after (Memory.b_transport m tr 0) = m.
Proof.
  intros m tr.
  assert (Hwf : Memory.well_formed m) by reflexivity.
  assert (Hv : Memory.valid_transaction tr)
    by (unfold Memory.valid_transaction; cbn; lia).
  assert (Hat : Memory.address tr = Memory.SIZE) by reflexivity.
  assert (Hle : Memory.SIZE <= Memory.address tr)
    by (rewrite Hat; apply Z.le_refl).
  pose proof (out_of_range_transaction_faults m tr 0 Hwf Hv (or_introl Hle))
    as Hthm.
  split; [exact Hwf | split; [exact Hv | split; [exact Hat |]]].
  split; [exact (proj1 (proj2 (proj2 (proj2 Hthm))))
         | exact (proj1 (proj2 (proj2 (proj2 (proj2 Hthm)))))].
Defined.

(** * Further properties of the accessors

    From here on the instruction is any [Instruction] object; [m_instr] is
    whatever its 64-bit slot holds. *)

Section StoredWord.

Variable I : Instruction.

(** The accessors select bits below position 32 only, so they cannot tell
    the stored value from its low 32 bits. *)
Lemma range_low32 (left right : Z) :
  0 <= right <= left -> left <= 31 ->
  ScInt.range (m_instr I) left right
  = ScInt.range (m_instr (new_Instruction (m_instr I))) left right.
Proof.
  intros Hr Hl.
  rewrite field_slice by assumption. apply range_slice; lia.
Qed.

Lemma bit_low32 (i : Z) :
  0 <= i <= 31 ->
  ScInt.bit (m_instr I) i
  = ScInt.bit (m_instr (new_Instruction (m_instr I))) i.
Proof.
  intros Hi. rewrite field_bit by assumption. apply bit_testbit; lia.
Qed.

Lemma accessors_low32 :
  let J := new_Instruction (m_instr I) in
  opcode I = opcode J /\ rd I = rd J /\ funct3 I = funct3 J /\
  rs1 I = rs1 J /\ rs2 I = rs2 J /\ funct7 I = funct7 J /\
  imm_I I = imm_I J /\ imm_S I = imm_S J /\ imm_U I = imm_U J /\
  imm_B I = imm_B J /\ imm_J I = imm_J J /\ csr I = csr J.
Proof.
  cbv zeta.
  unfold csr, imm_I, imm_S, imm_U, imm_B, imm_J,
    opcode, rd, funct3, rs1, rs2, funct7.
  rewrite <- !range_low32 by lia. rewrite <- !bit_low32 by lia.
  repeat split.
Qed.

End StoredWord.

(** ** Slices as arithmetic *)

Section SliceArithmetic.

Lemma slice_div_mod (v hi lo : Z) :
  0 <= lo <= hi -> slice v hi lo = (v / 2 ^ lo) mod 2 ^ (hi - lo + 1).
Proof.
  intros H. unfold slice.
  rewrite Z.land_ones by lia. rewrite Z.shiftr_div_pow2 by lia.
  reflexivity.
Qed.

(** A slice is its low part plus its high part, shifted. *)
Lemma slice_split (v hi mid lo : Z) :
  0 <= lo <= mid -> mid < hi ->
  slice v hi lo
  = slice v mid lo + 2 ^ (mid - lo + 1) * slice v hi (mid + 1).
Proof.
  intros Hlo Hhi.
  rewrite !slice_div_mod by lia.
  assert (Hn : 0 < 2 ^ (mid - lo + 1)) by (apply Z.pow_pos_nonneg; lia).
  assert (Hm : 0 < 2 ^ (hi - (mid + 1) + 1)) by (apply Z.pow_pos_nonneg; lia).
  replace (hi - lo + 1) with ((mid - lo + 1) + (hi - (mid + 1) + 1)) by lia.
  rewrite Z.pow_add_r by lia.
  rewrite Z.rem_mul_r by lia.
  replace (2 ^ (mid + 1)) with (2 ^ lo * 2 ^ (mid - lo + 1))
    by (rewrite <- Z.pow_add_r by lia; f_equal; lia).
  rewrite <- Z.div_div by (try apply Z.pow_pos_nonneg; lia).
  reflexivity.
Qed.

Lemma slice_low_mod (v hi : Z) :
  0 <= hi -> slice v hi 0 = v mod 2 ^ (hi + 1).
Proof.
  intros H. rewrite slice_div_mod by lia.
  rewrite Z.pow_0_r, Z.div_1_r. f_equal. f_equal. lia.
Qed.

Lemma slice_one_bit (v i : Z) :
  0 <= i -> slice v i i = Z.b2z (Z.testbit v i).
Proof.
  intros H. rewrite slice_div_mod by lia.
  replace (i - i + 1) with 1 by lia. rewrite Z.pow_1_r.
  rewrite Z.testbit_spec' by lia. reflexivity.
Qed.

(** Or-ing a value below [2 ^ n] with one shifted by [n] adds them; the
    shifted value may be negative. *)
Lemma lor_shiftl_add (lo hi n : Z) :
  0 <= n -> 0 <= lo < 2 ^ n ->
  Z.lor lo (Z.shiftl hi n) = lo + 2 ^ n * hi.
Proof.
  intros Hn Hlo.
  rewrite Z.or_to_plus.
  - rewrite Z.shiftl_mul_pow2 by lia. lia.
  - apply Z.bits_inj'. intros k Hk.
    rewrite Z.land_spec, Z.bits_0.
    destruct (Z.lt_ge_cases k n).
    + rewrite Z.shiftl_spec_low by lia. apply andb_false_r.
    + rewrite (testbit_nonneg_above n) by lia. reflexivity.
Qed.

End SliceArithmetic.

(** ** The fields of an arbitrary instruction object *)

Section FieldsOfStoredWord.

Variable I : Instruction.
Let w := m_instr I.

Lemma opcode_slice : opcode I = slice w 6 0.
Proof.
  rewrite (proj1 (accessors_low32 I)). apply opcode_value.
Qed.

Lemma rd_slice : rd I = slice w 11 7.
Proof.
  destruct (accessors_low32 I) as (_ & -> & _). apply rd_value.
Qed.

Lemma funct3_slice : funct3 I = slice w 14 12.
Proof.
  destruct (accessors_low32 I) as (_ & _ & -> & _). apply funct3_value.
Qed.

Lemma rs1_slice : rs1 I = slice w 19 15.
Proof.
  destruct (accessors_low32 I) as (_ & _ & _ & -> & _). apply rs1_value.
Qed.

Lemma rs2_slice : rs2 I = slice w 24 20.
Proof.
  destruct (accessors_low32 I) as (_ & _ & _ & _ & -> & _). apply rs2_value.
Qed.

Lemma funct7_slice : funct7 I = slice w 31 25.
Proof.
  destruct (accessors_low32 I) as (_ & _ & _ & _ & _ & -> & _).
  apply funct7_value.
Qed.

Lemma imm_U_slice : imm_U I = slice w 31 12.
Proof.
  destruct (accessors_low32 I) as (_ & _ & _ & _ & _ & _ & _ & _ & -> & _).
  apply imm_U_value.
Qed.

End FieldsOfStoredWord.

Ltac split_slice v hi mid lo :=
  rewrite (slice_split v hi mid lo) by lia;
  let n := eval vm_compute in (mid + 1) in
  change (mid + 1) with n;
  let p := eval vm_compute in (2 ^ (mid - lo + 1)) in
  change (2 ^ (mid - lo + 1)) with p.

Lemma word_as_slices (v : Z) :
  v mod 2 ^ 32
  = slice v 6 0 + 2 ^ 7 * slice v 11 7 + 2 ^ 12 * slice v 14 12
    + 2 ^ 15 * slice v 19 15 + 2 ^ 20 * slice v 24 20
    + 2 ^ 25 * slice v 31 25.
Proof.
  change (2 ^ 32) with (2 ^ (31 + 1)).
  rewrite <- (slice_low_mod v 31) by lia.
  split_slice v 31 6 0.
  split_slice v 31 11 7.
  split_slice v 31 14 12.
  split_slice v 31 19 15.
  split_slice v 31 24 20.
  lia.
Qed.

(** X1: the six fields partition the low 32 bits of the stored word:
    the word is [opcode + 2^7 rd + 2^12 funct3 + 2^15 rs1 + 2^20 rs2
    + 2^25 funct7]. *)
Theorem fields_partition_word (I : Instruction) :
  m_instr I mod 2 ^ 32
  = opcode I + 2 ^ 7 * rd I + 2 ^ 12 * funct3 I + 2 ^ 15 * rs1 I
    + 2 ^ 20 * rs2 I + 2 ^ 25 * funct7 I.
Proof.
  rewrite opcode_slice, rd_slice, funct3_slice, rs1_slice, rs2_slice,
    funct7_slice.
  apply word_as_slices.
Qed.

(** X2: the U-type immediate is bits 31:12 as they stand: with [opcode]
    and [rd] it makes up the word, and it is [funct3], [rs1], [rs2] and
    [funct7] put side by side. *)
Theorem imm_U_fields (I : Instruction) :
  m_instr I mod 2 ^ 32 = opcode I + 2 ^ 7 * rd I + 2 ^ 12 * imm_U I /\
  imm_U I = funct3 I + 2 ^ 3 * rs1 I + 2 ^ 8 * rs2 I + 2 ^ 13 * funct7 I.
Proof.
  pose proof (word_as_slices (m_instr I)) as Hw.
  rewrite opcode_slice, rd_slice, imm_U_slice, funct3_slice, rs1_slice,
    rs2_slice, funct7_slice.
  assert (E : slice (m_instr I) 31 12
              = slice (m_instr I) 14 12 + 2 ^ 3 * slice (m_instr I) 19 15
                + 2 ^ 8 * slice (m_instr I) 24 20
                + 2 ^ 13 * slice (m_instr I) 31 25).
  { split_slice (m_instr I) 31 14 12.
    split_slice (m_instr I) 31 19 15.
    split_slice (m_instr I) 31 24 20.
    lia. }
  split; [| exact E].
  rewrite Hw, E. lia.
Qed.

(** ** The signed immediates in terms of the fields *)

Section ImmediateValues.

Lemma testbit_sign_word (b : bool) (k : Z) :
  0 <= k -> Z.testbit (if b then -1 else 0) k = b.
Proof.
  intros Hk. destruct b; [apply Z.bits_m1; assumption | apply Z.bits_0].
Qed.

(** A number that has the bits of [u] below position [n] and the bit [b]
    from [n] on is [u], less [2 ^ n] when [b] is set. *)
Lemma sign_extend_value (x u n : Z) (b : bool) :
  0 <= n -> 0 <= u < 2 ^ n ->
  (forall k, 0 <= k < n -> Z.testbit x k = Z.testbit u k) ->
  (forall k, n <= k -> Z.testbit x k = b) ->
  x = u - (if b then 2 ^ n else 0).
Proof.
  intros Hn Hu Hlow Hhigh.
  assert (E : x = Z.lor u (Z.shiftl (if b then -1 else 0) n)).
  { apply Z.bits_inj'. intros k Hk.
    rewrite Z.lor_spec.
    destruct (Z.lt_ge_cases k n).
    - rewrite Z.shiftl_spec_low, orb_false_r by lia. apply Hlow. lia.
    - rewrite Z.shiftl_spec, testbit_sign_word by lia.
      rewrite (testbit_nonneg_above n u k) by lia.
      apply Hhigh. assumption. }
  rewrite E, lor_shiftl_add by assumption.
  destruct b; lia.
Qed.

(** Bit 31 of the word is the top bit of [funct7]. *)
Lemma sign_bit_slice (v : Z) :
  slice v 31 25 = slice v 30 25 + 64 * Z.b2z (Z.testbit v 31).
Proof.
  split_slice v 31 30 25. rewrite slice_one_bit by lia. reflexivity.
Qed.

Lemma sign_bit_div (v : Z) :
  Z.b2z (Z.testbit v 31) = slice v 31 25 / 64 /\
  slice v 30 25 = slice v 31 25 mod 64.
Proof.
  pose proof (sign_bit_slice v) as E.
  pose proof (slice_bound v 30 25 ltac:(lia)) as Hb.
  change (2 ^ (30 - 25 + 1)) with 64 in Hb.
  split.
  - apply Z.div_unique with (r := slice v 30 25); lia.
  - apply Z.mod_unique with (q := Z.b2z (Z.testbit v 31)); lia.
Qed.

Ltac decide_tests :=
  repeat match goal with
    | |- context [ ?a <? ?b ] => destruct (Z.ltb_spec a b); try lia
    | |- context [ ?a <=? ?b ] => destruct (Z.leb_spec a b); try lia
    | |- context [ ?a =? ?b ] => destruct (Z.eqb_spec a b); try lia
    end.

Ltac slice_bits_eq :=
  decide_tests;
  repeat first
    [ rewrite Z.lor_spec
    | rewrite Z.shiftl_spec'
    | rewrite slice_bits by lia ];
  decide_tests;
  cbn [andb orb negb];
  rewrite ?orb_false_r, ?andb_false_r, ?andb_true_r;
  cbn [andb orb negb];
  first [ reflexivity | f_equal; lia ].

Lemma imm_S_value (w : Z) :
  imm_S (new_Instruction w)
  = slice w 11 7 + 32 * slice w 30 25
    - (if Z.testbit w 31 then 2 ^ 11 else 0).
Proof.
  pose proof (slice_bound w 11 7 ltac:(lia)) as H1.
  pose proof (slice_bound w 30 25 ltac:(lia)) as H2.
  change (2 ^ (11 - 7 + 1)) with 32 in H1.
  change (2 ^ (30 - 25 + 1)) with 64 in H2.
  replace (slice w 11 7 + 32 * slice w 30 25)
    with (Z.lor (slice w 11 7) (Z.shiftl (slice w 30 25) 5))
    by (rewrite lor_shiftl_add by lia; lia).
  apply sign_extend_value.
  - lia.
  - rewrite lor_shiftl_add by lia. lia.
  - intros k Hk. rewrite imm_S_bits by lia. slice_bits_eq.
  - intros k Hk. rewrite imm_S_bits by lia. decide_tests. reflexivity.
Qed.

Lemma imm_B_value (w : Z) :
  imm_B (new_Instruction w)
  = 2 * slice w 11 8 + 32 * slice w 30 25 + 2048 * slice w 7 7
    - (if Z.testbit w 31 then 2 ^ 12 else 0).
Proof.
  pose proof (slice_bound w 11 8 ltac:(lia)) as H1.
  pose proof (slice_bound w 30 25 ltac:(lia)) as H2.
  pose proof (slice_bound w 7 7 ltac:(lia)) as H3.
  change (2 ^ (11 - 8 + 1)) with 16 in H1.
  change (2 ^ (30 - 25 + 1)) with 64 in H2.
  change (2 ^ (7 - 7 + 1)) with 2 in H3.
  set (u := Z.shiftl
              (Z.lor (slice w 11 8)
                 (Z.shiftl (Z.lor (slice w 30 25) (Z.shiftl (slice w 7 7) 6))
                    4)) 1).
  assert (Eu : u = 2 * slice w 11 8 + 32 * slice w 30 25
                   + 2048 * slice w 7 7).
  { subst u. rewrite Z.shiftl_mul_pow2, !lor_shiftl_add by lia. lia. }
  rewrite <- Eu.
  apply sign_extend_value.
  - lia.
  - rewrite Eu. lia.
  - intros k Hk. rewrite imm_B_bits by lia. subst u.
    destruct (Z.eqb_spec k 0) as [-> | Hk0].
    + rewrite Z.shiftl_spec_low by lia. reflexivity.
    + slice_bits_eq.
  - intros k Hk. rewrite imm_B_bits by lia. decide_tests. reflexivity.
Qed.

Lemma imm_J_value (w : Z) :
  imm_J (new_Instruction w)
  = 2 * slice w 30 21 + 2048 * slice w 20 20 + 4096 * slice w 19 12
    - (if Z.testbit w 31 then 2 ^ 20 else 0).
Proof.
  pose proof (slice_bound w 30 21 ltac:(lia)) as H1.
  pose proof (slice_bound w 20 20 ltac:(lia)) as H2.
  pose proof (slice_bound w 19 12 ltac:(lia)) as H3.
  change (2 ^ (30 - 21 + 1)) with 1024 in H1.
  change (2 ^ (20 - 20 + 1)) with 2 in H2.
  change (2 ^ (19 - 12 + 1)) with 256 in H3.
  set (u := Z.shiftl
              (Z.lor (slice w 30 21)
                 (Z.shiftl (Z.lor (slice w 20 20) (Z.shiftl (slice w 19 12) 1))
                    10)) 1).
  assert (Eu : u = 2 * slice w 30 21 + 2048 * slice w 20 20
                   + 4096 * slice w 19 12).
  { subst u. rewrite Z.shiftl_mul_pow2, !lor_shiftl_add by lia. lia. }
  rewrite <- Eu.
  apply sign_extend_value.
  - lia.
  - rewrite Eu. lia.
  - intros k Hk. rewrite imm_J_bits by lia. subst u.
    destruct (Z.eqb_spec k 0) as [-> | Hk0].
    + rewrite Z.shiftl_spec_low by lia. reflexivity.
    + slice_bits_eq.
  - intros k Hk. rewrite imm_J_bits by lia. decide_tests. reflexivity.
Qed.

End ImmediateValues.

Section ImmediatesOfStoredWord.

Variable I : Instruction.
Let w := m_instr I.

Lemma imm_I_low32 : imm_I I = imm_I (new_Instruction w).
Proof.
  destruct (accessors_low32 I) as (_ & _ & _ & _ & _ & _ & H & _). exact H.
Qed.

Lemma imm_S_low32 : imm_S I = imm_S (new_Instruction w).
Proof.
  destruct (accessors_low32 I) as (_ & _ & _ & _ & _ & _ & _ & H & _).
  exact H.
Qed.

Lemma imm_B_low32 : imm_B I = imm_B (new_Instruction w).
Proof.
  destruct (accessors_low32 I)
    as (_ & _ & _ & _ & _ & _ & _ & _ & _ & H & _).
  exact H.
Qed.

Lemma imm_J_low32 : imm_J I = imm_J (new_Instruction w).
Proof.
  destruct (accessors_low32 I)
    as (_ & _ & _ & _ & _ & _ & _ & _ & _ & _ & H & _).
  exact H.
Qed.

(** The top bit of [funct7] is bit 31 of the word. *)
Lemma funct7_sign : funct7 I / 64 = Z.b2z (Z.testbit w 31) /\
                    funct7 I mod 64 = slice w 30 25.
Proof.
  rewrite funct7_slice. fold w.
  destruct (sign_bit_div w) as [-> ->]. split; reflexivity.
Qed.

Lemma rd_halves : rd I / 2 = slice w 11 8 /\ rd I mod 2 = slice w 7 7.
Proof.
  rewrite rd_slice. fold w.
  pose proof (slice_bound w 7 7 ltac:(lia)) as Hb.
  change (2 ^ (7 - 7 + 1)) with 2 in Hb.
  assert (E : slice w 11 7 = slice w 7 7 + 2 * slice w 11 8)
    by (split_slice w 11 7 7; reflexivity).
  split; symmetry.
  - apply Z.div_unique with (r := slice w 7 7); lia.
  - apply Z.mod_unique with (q := slice w 11 8); lia.
Qed.

Lemma rs2_halves : rs2 I / 2 = slice w 24 21 /\ rs2 I mod 2 = slice w 20 20.
Proof.
  rewrite rs2_slice. fold w.
  pose proof (slice_bound w 20 20 ltac:(lia)) as Hb.
  change (2 ^ (20 - 20 + 1)) with 2 in Hb.
  assert (E : slice w 24 20 = slice w 20 20 + 2 * slice w 24 21)
    by (split_slice w 24 20 20; reflexivity).
  split; symmetry.
  - apply Z.div_unique with (r := slice w 20 20); lia.
  - apply Z.mod_unique with (q := slice w 24 21); lia.
Qed.

End ImmediatesOfStoredWord.

(** X3: [imm_I] is [rs2] below [funct7], read as a 12-bit two's
    complement number: [rs2 + 32 funct7 - 4096 (funct7 / 64)], a value in
    [[-2048, 2047]]. *)
Theorem imm_I_fields (I : Instruction) :
  imm_I I = rs2 I + 32 * funct7 I - 4096 * (funct7 I / 64) /\
  - 2048 <= imm_I I <= 2047.
Proof.
  destruct (funct7_sign I) as [Hs _].
  rewrite Hs, imm_I_low32, rs2_slice, funct7_slice.
  pose proof (imm_I_range (m_instr I)) as Hr.
  rewrite imm_I_value in *.
  split; [| exact Hr].
  split_slice (m_instr I) 31 24 20.
  destruct (Z.testbit (m_instr I) 31); cbn [Z.b2z]; lia.
Qed.

(** X4: [imm_S] is [rd] below [funct7], read as a 12-bit two's complement
    number: [rd + 32 funct7 - 4096 (funct7 / 64)], a value in
    [[-2048, 2047]]. *)
Theorem imm_S_fields (I : Instruction) :
  imm_S I = rd I + 32 * funct7 I - 4096 * (funct7 I / 64) /\
  - 2048 <= imm_S I <= 2047.
Proof.
  destruct (funct7_sign I) as [Hs _].
  rewrite Hs, imm_S_low32, rd_slice, funct7_slice.
  rewrite imm_S_value, sign_bit_slice.
  pose proof (slice_bound (m_instr I) 11 7 ltac:(lia)) as H1.
  pose proof (slice_bound (m_instr I) 30 25 ltac:(lia)) as H2.
  change (2 ^ (11 - 7 + 1)) with 32 in H1.
  change (2 ^ (30 - 25 + 1)) with 64 in H2.
  destruct (Z.testbit (m_instr I) 31); cbn [Z.b2z]; lia.
Qed.

(** X5: [imm_B] in terms of the fields: bits 4:1 are the upper four bits
    of [rd], bits 10:5 the lower six bits of [funct7], bit 11 the lowest
    bit of [rd], and the top bit of [funct7] is the sign, of weight
    [-4096]. *)
Theorem imm_B_fields (I : Instruction) :
  imm_B I = 2 * (rd I / 2) + 32 * (funct7 I mod 64) + 2048 * (rd I mod 2)
            - 4096 * (funct7 I / 64).
Proof.
  destruct (funct7_sign I) as [-> ->].
  destruct (rd_halves I) as [-> ->].
  rewrite imm_B_low32, imm_B_value.
  destruct (Z.testbit (m_instr I) 31); cbn [Z.b2z]; lia.
Qed.

(** X6: [imm_J] in terms of the fields: bits 4:1 are the upper four bits
    of [rs2], bits 10:5 the lower six bits of [funct7], bit 11 the lowest
    bit of [rs2], bits 14:12 are [funct3], bits 19:15 are [rs1], and the
    top bit of [funct7] is the sign, of weight [-1048576]. *)
Theorem imm_J_fields (I : Instruction) :
  imm_J I = 2 * (rs2 I / 2) + 32 * (funct7 I mod 64)
            + 2048 * (rs2 I mod 2) + 4096 * funct3 I + 32768 * rs1 I
            - 1048576 * (funct7 I / 64).
Proof.
  destruct (funct7_sign I) as [-> ->].
  destruct (rs2_halves I) as [-> ->].
  rewrite funct3_slice, rs1_slice.
  rewrite imm_J_low32, imm_J_value.
  split_slice (m_instr I) 30 24 21.
  split_slice (m_instr I) 19 14 12.
  destruct (Z.testbit (m_instr I) 31); cbn [Z.b2z]; lia.
Qed.

(** X7: the four signed immediates have the sign of the word: each is
    negative exactly when bit 31 is set, that is when [funct7] is at
    least 64. *)
Theorem immediates_share_sign (I : Instruction) :
  (imm_I I < 0 <-> 64 <= funct7 I) /\
  (imm_S I < 0 <-> 64 <= funct7 I) /\
  (imm_B I < 0 <-> 64 <= funct7 I) /\
  (imm_J I < 0 <-> 64 <= funct7 I).
Proof.
  rewrite imm_I_low32, imm_S_low32, imm_B_low32, imm_J_low32, funct7_slice.
  rewrite imm_I_value, imm_S_value, imm_B_value, imm_J_value, sign_bit_slice.
  pose proof (slice_bound (m_instr I) 31 20 ltac:(lia)) as H0.
  pose proof (slice_bound (m_instr I) 11 7 ltac:(lia)) as H1.
  pose proof (slice_bound (m_instr I) 30 25 ltac:(lia)) as H2.
  pose proof (slice_bound (m_instr I) 11 8 ltac:(lia)) as H3.
  pose proof (slice_bound (m_instr I) 7 7 ltac:(lia)) as H4.
  pose proof (slice_bound (m_instr I) 30 21 ltac:(lia)) as H5.
  pose proof (slice_bound (m_instr I) 20 20 ltac:(lia)) as H6.
  pose proof (slice_bound (m_instr I) 19 12 ltac:(lia)) as H7.
  cbn in H0, H1, H2, H3, H4, H5, H6, H7.
  destruct (Z.testbit (m_instr I) 31); cbn [Z.b2z]; lia.
Qed.

(** X8: the 12-bit unsigned field behind [csr] is recovered by reducing it
    modulo 4096: [csr mod 4096] is [rs2 + 32 funct7], in [[0, 4095]]. *)
Theorem csr_mod_4096 (I : Instruction) :
  csr I mod 4096 = rs2 I + 32 * funct7 I /\
  0 <= rs2 I + 32 * funct7 I <= 4095.
Proof.
  unfold csr.
  rewrite imm_I_low32, rs2_slice, funct7_slice, imm_I_value.
  pose proof (slice_bound (m_instr I) 31 20 ltac:(lia)) as Hb.
  change (2 ^ (31 - 20 + 1)) with 4096 in Hb.
  assert (E : slice (m_instr I) 31 20
              = slice (m_instr I) 24 20 + 32 * slice (m_instr I) 31 25)
    by (split_slice (m_instr I) 31 24 20; reflexivity).
  rewrite <- E. split; [| lia].
  destruct (Z.testbit (m_instr I) 31).
  - symmetry. apply Z.mod_unique with (q := -1); lia.
  - rewrite Z.sub_0_r. apply Z.mod_small. lia.
Qed.

(** ** The immediate and its field determine each other *)

Section FieldOfImmediate.

Ltac decide_tests :=
  repeat match goal with
    | |- context [ ?a <? ?b ] => destruct (Z.ltb_spec a b); try lia
    | |- context [ ?a <=? ?b ] => destruct (Z.leb_spec a b); try lia
    | |- context [ ?a =? ?b ] => destruct (Z.eqb_spec a b); try lia
    end.

Ltac push_field_bits :=
  repeat first
    [ rewrite Z.lor_spec
    | rewrite Z.land_spec
    | rewrite Z.shiftl_spec'
    | rewrite slice_bits by lia
    | rewrite Z.testbit_ones by lia
    | rewrite Z.testbit_mod_pow2 by lia ].

Ltac tidy_bools :=
  cbn [andb orb negb];
  rewrite ?orb_false_r, ?andb_false_r, ?andb_true_r;
  cbn [andb orb negb].

Ltac field_bits_eq imm_bits :=
  apply Z.bits_inj'; intros k Hk;
  push_field_bits; decide_tests; tidy_bools;
  rewrite ?imm_bits by lia;
  decide_tests; tidy_bools;
  first [ reflexivity | f_equal; lia ].

(** Encoding the immediate an instruction word holds gives back the
    word's immediate field. *)
Lemma encode_immediate (f : format) (w : Z) :
  encode f (immediate f (new_Instruction w))
  = Z.land (w mod 2 ^ 32) (field_mask f).
Proof.
  destruct f; cbn [encode immediate].
  - rewrite field_mask_I. field_bits_eq imm_I_bits.
  - rewrite field_mask_S. field_bits_eq imm_S_bits.
  - rewrite field_mask_B. field_bits_eq imm_B_bits.
  - rewrite field_mask_J. field_bits_eq imm_J_bits.
Qed.

Lemma immediate_low32 (f : format) (I : Instruction) :
  immediate f I = immediate f (new_Instruction (m_instr I)).
Proof.
  destruct f; cbn [immediate].
  - apply imm_I_low32.
  - apply imm_S_low32.
  - apply imm_B_low32.
  - apply imm_J_low32.
Qed.

Lemma lor_land_lnot (a m : Z) :
  Z.lor (Z.land a (Z.lnot m)) (Z.land a m) = a.
Proof.
  apply Z.bits_inj'. intros k Hk.
  rewrite Z.lor_spec, !Z.land_spec, Z.lnot_spec by assumption.
  destruct (Z.testbit a k), (Z.testbit m k); reflexivity.
Qed.

(** What an accessor returns is a displacement its format can
    represent. *)
Lemma immediate_representable (f : format) (w : Z) :
  representable f (immediate f (new_Instruction w)) = true.
Proof.
  pose proof (slice_bound w 11 7 ltac:(lia)) as H1.
  pose proof (slice_bound w 30 25 ltac:(lia)) as H2.
  pose proof (slice_bound w 11 8 ltac:(lia)) as H3.
  pose proof (slice_bound w 7 7 ltac:(lia)) as H4.
  pose proof (slice_bound w 30 21 ltac:(lia)) as H5.
  pose proof (slice_bound w 20 20 ltac:(lia)) as H6.
  pose proof (slice_bound w 19 12 ltac:(lia)) as H7.
  cbn in H1, H2, H3, H4, H5, H6, H7.
  destruct f; cbn [representable immediate];
    repeat (apply andb_true_intro; split);
    try apply Z.leb_le.
  - pose proof (imm_I_range w). lia.
  - pose proof (imm_I_range w). lia.
  - rewrite imm_S_value. destruct (Z.testbit w 31); lia.
  - rewrite imm_S_value. destruct (Z.testbit w 31); lia.
  - rewrite imm_B_value. destruct (Z.testbit w 31); lia.
  - rewrite imm_B_value. destruct (Z.testbit w 31); lia.
  - apply even_of_bit0. rewrite imm_B_bits by lia. reflexivity.
  - rewrite imm_J_value. destruct (Z.testbit w 31); lia.
  - rewrite imm_J_value. destruct (Z.testbit w 31); lia.
  - apply even_of_bit0. rewrite imm_J_bits by lia. reflexivity.
Qed.

(** Two words with the same immediate field have the same bit wherever
    the field mask has one. *)
Lemma field_bit_eq (f : format) (w w' i : Z) :
  Z.land (w mod 2 ^ 32) (field_mask f)
  = Z.land (w' mod 2 ^ 32) (field_mask f) ->
  0 <= i < 32 -> Z.testbit (field_mask f) i = true ->
  Z.testbit w i = Z.testbit w' i.
Proof.
  intros H Hi Hm.
  assert (E : Z.testbit (Z.land (w mod 2 ^ 32) (field_mask f)) i
              = Z.testbit (Z.land (w' mod 2 ^ 32) (field_mask f)) i)
    by (rewrite H; reflexivity).
  rewrite !Z.land_spec, !Z.testbit_mod_pow2, Hm, !andb_true_r in E by lia.
  destruct (Z.ltb_spec i 32); [exact E | lia].
Qed.

Ltac mask_bit :=
  push_field_bits; decide_tests; reflexivity.

Ltac same_field_bits H :=
  decide_tests;
  first [ reflexivity
        | eapply field_bit_eq; [exact H | lia | ] ].

Lemma immediate_of_field (f : format) (w w' : Z) :
  Z.land (w mod 2 ^ 32) (field_mask f)
  = Z.land (w' mod 2 ^ 32) (field_mask f) ->
  immediate f (new_Instruction w) = immediate f (new_Instruction w').
Proof.
  intros H.
  apply Z.bits_inj'. intros k Hk.
  destruct f; cbn [immediate].
  - rewrite !imm_I_bits by lia. same_field_bits H;
      rewrite field_mask_I; mask_bit.
  - rewrite !imm_S_bits by lia. same_field_bits H;
      rewrite field_mask_S; mask_bit.
  - rewrite !imm_B_bits by lia. same_field_bits H;
      rewrite field_mask_B; mask_bit.
  - rewrite !imm_J_bits by lia. same_field_bits H;
      rewrite field_mask_J; mask_bit.
Qed.

End FieldOfImmediate.

(** X9: writing the immediate an instruction holds back into its own
    field changes nothing: the displacement returned by an accessor is
    representable in its format, and [place] with it gives the low 32 bits
    of the stored word. *)
Theorem place_own_immediate (f : format) (I : Instruction) :
  representable f (immediate f I) = true /\
  place f (m_instr I) (immediate f I) = m_instr I mod 2 ^ 32.
Proof.
  rewrite immediate_low32. split.
  - apply immediate_representable.
  - unfold place. rewrite encode_immediate. apply lor_land_lnot.
Qed.

(** X10: an immediate depends on exactly the bits of its field: two
    instructions have the same immediate of a format if and only if their
    words agree on the format's field mask.  Opcode and register bits
    outside the field never change it. *)
Theorem immediate_iff_same_field (f : format) (I J : Instruction) :
  immediate f I = immediate f J <->
  Z.land (m_instr I mod 2 ^ 32) (field_mask f)
  = Z.land (m_instr J mod 2 ^ 32) (field_mask f).
Proof.
  rewrite (immediate_low32 f I), (immediate_low32 f J).
  split.
  - intros H. rewrite <- !encode_immediate, H. reflexivity.
  - apply immediate_of_field.
Qed.

(** X11: the low five bits of [imm_I] are [rs2] (the shift amount of the
    immediate shifts), the low five bits of [imm_S] are [rd], and above
    them the two immediates are the same. *)
Theorem immediate_low_bits (I : Instruction) :
  imm_I I mod 32 = rs2 I /\
  imm_S I mod 32 = rd I /\
  imm_I I / 32 = imm_S I / 32.
Proof.
  rewrite imm_I_low32, imm_S_low32, rs2_slice, rd_slice.
  rewrite imm_I_value, imm_S_value.
  assert (E : slice (m_instr I) 31 20
              = slice (m_instr I) 24 20 + 32 * slice (m_instr I) 31 25)
    by (split_slice (m_instr I) 31 24 20; reflexivity).
  rewrite E, sign_bit_slice.
  pose proof (slice_bound (m_instr I) 24 20 ltac:(lia)) as H1.
  pose proof (slice_bound (m_instr I) 11 7 ltac:(lia)) as H2.
  change (2 ^ (24 - 20 + 1)) with 32 in H1.
  change (2 ^ (11 - 7 + 1)) with 32 in H2.
  set (b := Z.b2z (Z.testbit (m_instr I) 31)).
  assert (Hb : (if Z.testbit (m_instr I) 31 then 4096 else 0) = 4096 * b)
    by (subst b; destruct (Z.testbit (m_instr I) 31); reflexivity).
  assert (Hb' : (if Z.testbit (m_instr I) 31 then 2 ^ 11 else 0) = 2048 * b)
    by (subst b; destruct (Z.testbit (m_instr I) 31); reflexivity).
  rewrite Hb, Hb'.
  set (q := slice (m_instr I) 30 25 - 64 * b).
  repeat split.
  - symmetry. apply Z.mod_unique with (q := q); subst q; lia.
  - symmetry. apply Z.mod_unique with (q := q); subst q; lia.
  - transitivity q.
    + symmetry.
      apply Z.div_unique with (r := slice (m_instr I) 24 20); subst q; lia.
    + apply Z.div_unique with (r := slice (m_instr I) 11 7); subst q; lia.
Qed.
